(** * Election portal: the aggregation and scoring pipeline of [streamlit_app.py]

    The development embeds the computational core of the dashboard:
    - [generate_election_data] (lines 74-122): the seeded synthesizer and the
      two derived columns [total_constituency_votes] and [vote_share_pct];
    - [predict_winner_ensemble] (lines 166-185): group by party, aggregate,
      score, normalise, project and sort;
    - the call site in [winner_prediction] (lines 343-344) that reads the
      first row of the prediction;
    - the figures the pages compute from the frame: [home_page],
      [voting_dashboard], [counting_dashboard], [module1_page] and
      [module2_page] (charts and layout are not modelled);
    - the session state that [login_page], [main] and the button of
      [winner_prediction] read and write across the runs of the script.

    Numbers.  The integer columns are Python/pandas integers, read here as
    [Z].  The float columns are NumPy [float64]; they are read here as exact
    rationals extended with the three special values of IEEE 754 that the
    frame operations of the program can produce ([nan], [inf], [-inf]).
    Rounding error of binary floating point is therefore not part of this
    model; what is kept is the order of the operations, the behaviour of a
    zero denominator, [round(2)] (to the nearest hundredth, ties to even),
    [astype(int)] (truncation) and the way pandas reductions skip [nan]. *)

From Stdlib Require Import ZArith QArith Qround Qabs String Ascii List Bool.
From Stdlib Require Import Lia Lqa Sorted Permutation DecimalString.
Import ListNotations.

Set Implicit Arguments.
Open Scope string_scope.
Open Scope list_scope.
Open Scope Q_scope.

(* ------------------------------------------------------------------------- *)
(** ** NumPy float64 values *)

Inductive float64 : Type :=
| Fin (q : Q)      (* a finite value *)
| PInf             (* inf *)
| NInf             (* -inf *)
| NaN.             (* nan *)

Definition of_int (z : Z) : float64 := Fin (inject_Z z).

Definition isna (x : float64) : bool :=
  match x with NaN => true | _ => false end.

Definition notna (x : float64) : bool := negb (isna x).

Definition Qis_zero (q : Q) : bool := (Qnum q =? 0)%Z.
Definition Qis_neg (q : Q) : bool := (Qnum q <? 0)%Z.

(** [x + y] on float64. *)
Definition fadd (x y : float64) : float64 :=
  match x, y with
  | NaN, _ | _, NaN => NaN
  | Fin a, Fin b => Fin (a + b)
  | PInf, NInf | NInf, PInf => NaN
  | PInf, _ | _, PInf => PInf
  | NInf, _ | _, NInf => NInf
  end.

(** The infinity of the sign of [q], [nan] for zero (as in [inf * 0]). *)
Definition inf_times (pos : bool) (q : Q) : float64 :=
  if Qis_zero q then NaN
  else if xorb pos (negb (Qis_neg q)) then NInf else PInf.

(** [x * y] on float64. *)
Definition fmul (x y : float64) : float64 :=
  match x, y with
  | NaN, _ | _, NaN => NaN
  | Fin a, Fin b => Fin (a * b)
  | PInf, Fin b => inf_times true b
  | NInf, Fin b => inf_times false b
  | Fin a, PInf => inf_times true a
  | Fin a, NInf => inf_times false a
  | PInf, PInf | NInf, NInf => PInf
  | PInf, NInf | NInf, PInf => NInf
  end.

(** [x / y] on float64, elementwise as NumPy divides arrays: a zero
    denominator raises nothing, it yields [nan] for [0 / 0] and an infinity
    of the sign of the numerator otherwise (the zero denominators of this
    program are integer totals and sums, that is [+0.0]). *)
Definition fdiv (x y : float64) : float64 :=
  match x, y with
  | NaN, _ | _, NaN => NaN
  | Fin a, Fin b =>
      if Qis_zero b then
        if Qis_zero a then NaN else if Qis_neg a then NInf else PInf
      else Fin (a / b)
  | Fin _, (PInf | NInf) => Fin 0
  | (PInf | NInf), (PInf | NInf) => NaN
  | PInf, Fin b => if Qis_neg b then NInf else PInf
  | NInf, Fin b => if Qis_neg b then PInf else NInf
  end.

(** [np.rint]: the nearest integer, ties to the even one. *)
Definition rint (q : Q) : Z :=
  let f := Qfloor q in
  match Qcompare (q - inject_Z f) (1 # 2) with
  | Lt => f
  | Gt => (f + 1)%Z
  | Eq => if Z.even f then f else (f + 1)%Z
  end.

(** [np.round(q, 2)] on a finite value: [rint (q * 100) / 100]. *)
Definition Qround2 (q : Q) : Q := inject_Z (rint (q * 100)) / 100.

(** [Series.round(2)]: special values are left as they are. *)
Definition round2 (x : float64) : float64 :=
  match x with
  | Fin q => Fin (Qround2 q)
  | other => other
  end.

(** Python [int(x)] and [astype(int)] on a finite value: truncation toward
    zero. *)
Definition Qtrunc (q : Q) : Z := Z.quot (Qnum q) (Z.pos (Qden q)).

(** Order of float64 values that are not [nan]:
    [-inf < finite < inf]; every comparison with [nan] is false. *)
Definition fleb (x y : float64) : bool :=
  match x, y with
  | NaN, _ | _, NaN => false
  | NInf, _ => true
  | _, PInf => true
  | Fin a, Fin b => Qle_bool a b
  | _, _ => false
  end.

(** [Series.sum()] (skipna=True): [nan] entries are skipped, the sum of no
    entry is [0.0]. *)
Definition series_sum (xs : list float64) : float64 :=
  fold_left fadd (filter notna xs) (Fin 0).

(** The group reduction [mean] of a float column: [nan] entries are
    skipped; a group with no other entry has mean [nan]. *)
Definition series_mean (xs : list float64) : float64 :=
  match filter notna xs with
  | [] => NaN
  | ys => fdiv (fold_left fadd ys (Fin 0)) (of_int (Z.of_nat (length ys)))
  end.

(** Sum of an integer column. *)
Definition int_sum (zs : list Z) : Z := fold_left Z.add zs 0%Z.

(** Sum of a list of rationals. *)
Definition Qsum (qs : list Q) : Q := fold_left Qplus qs 0.

(* ------------------------------------------------------------------------- *)
(** ** Outcome of a Python call *)

Inductive exception : Type :=
| PyError (class_name : string).

Inductive outcome (A : Type) : Type :=
| Returns (a : A)
| Raises (e : exception).

Arguments Returns {A} a.
Arguments Raises {A} e.

Definition IndexError : exception := PyError "IndexError".

(** [frame.iloc[0]]: the first row, [IndexError] on a frame without rows. *)
Definition iloc0 {A : Type} (frame : list A) : outcome A :=
  match frame with
  | [] => Raises IndexError
  | r :: _ => Returns r
  end.

(* ------------------------------------------------------------------------- *)
(** ** [groupby]: rows collected by key

    pandas factorises the key column (one group per distinct key, in order
    of first appearance, each group keeping the frame's row order) and, with
    the default [sort=True], presents the groups in increasing key order. *)

Section GroupBy.
Variable A : Type.
Variable key : A -> string.

Fixpoint add_row (r : A) (gs : list (string * list A)) : list (string * list A) :=
  match gs with
  | [] => [(key r, [r])]
  | (k, rows) :: rest =>
      if String.eqb (key r) k then (k, rows ++ [r]) :: rest
      else (k, rows) :: add_row r rest
  end.

Definition groups (frame : list A) : list (string * list A) :=
  fold_left (fun gs r => add_row r gs) frame [].

(** The rows of [frame] whose key is [k]. *)
Definition rows_with (k : string) (frame : list A) : list A :=
  filter (fun r => String.eqb (key r) k) frame.

(** The group of [k], empty when [k] is not a key of the frame. *)
Fixpoint get_group (k : string) (gs : list (string * list A)) : list A :=
  match gs with
  | [] => []
  | (k', rows) :: rest => if String.eqb k k' then rows else get_group k rest
  end.

Fixpoint insert_group (g : string * list A) (gs : list (string * list A))
  : list (string * list A) :=
  match gs with
  | [] => [g]
  | h :: rest =>
      if String.leb (fst g) (fst h) then g :: gs
      else h :: insert_group g rest
  end.

(** The groups in increasing key order. *)
Definition sort_index (gs : list (string * list A)) : list (string * list A) :=
  fold_right insert_group [] gs.

Definition groupby (frame : list A) : list (string * list A) :=
  sort_index (groups frame).
End GroupBy.

(* ------------------------------------------------------------------------- *)
(** ** Data model *)

(** One dictionary appended to [data_list] (lines 104-116): the eight raw
    columns of the frame. *)
Record Row : Type := {
  region : string;
  constituency_id : Z;
  constituency_name : string;
  total_voters : Z;
  party : string;
  votes : Z;
  counting_status : string;
  counted_votes : Z
}.

(** One row of the frame once lines 119-120 have set the two derived
    columns. *)
Record VoteRecord : Type := {
  base :> Row;
  total_constituency_votes : Z;
  vote_share_pct : float64
}.

Definition DataFrame : Type := list VoteRecord.

(* ------------------------------------------------------------------------- *)
(** ** Derivation step (lines 119-120) *)

(** Line 119, one cell of
    [df.groupby('constituency_name')['votes'].transform('sum')]:
    the sum of [votes] over the group of the row's constituency. *)
Definition group_total (rows : list Row) (r : Row) : Z :=
  int_sum (map votes
             (get_group (constituency_name r) (groupby constituency_name rows))).

(** Line 120, one cell of
    [(df['votes'] / df['total_constituency_votes'] * 100).round(2)]. *)
Definition share_pct (v total : Z) : float64 :=
  round2 (fmul (fdiv (of_int v) (of_int total)) (Fin 100)).

(** Lines 119-120 on the frame built from [data_list]. *)
Definition derive_columns (rows : list Row) : DataFrame :=
  map (fun r =>
         let total := group_total rows r in
         {| base := r;
            total_constituency_votes := total;
            vote_share_pct := share_pct (votes r) total |})
      rows.

(** Lines 119-120 on a frame that already has the two columns: the
    assignments [df['total_constituency_votes'] = ...] and
    [df['vote_share_pct'] = ...] read only [constituency_name] and [votes]
    and replace the two columns. *)
Definition derive (df : DataFrame) : DataFrame :=
  derive_columns (map base df).

(* ------------------------------------------------------------------------- *)
(** ** Scoring step: [predict_winner_ensemble] (lines 166-185) *)

(** [party_stats] after line 173.  The column ['party'] is [stat_party]
    here, [party] being the column of the input frame. *)
Record PartyStats : Type := {
  stat_party : string;
  total_votes : Z;
  avg_votes : float64;
  std_votes : float64;
  count : Z;
  avg_share : float64
}.

(** [party_stats] after line 183. *)
Record PartyAggregate : Type := {
  stats :> PartyStats;
  score : float64;
  win_probability : float64;
  predicted_votes : Z
}.

(** A square root on rationals to twelve decimals, to run the definitions
    below on concrete frames. *)
Definition Qsqrt (q : Q) : Q :=
  Z.sqrt (Qnum q * 10 ^ 24 / Z.pos (Qden q)) # 10 ^ 12.

Section Scoring.
(** The square root behind the [std] reduction.  It has no exact value on
    rationals, so the step is stated for any such function; no later
    column reads [std_votes]. *)
Variable sqrt : Q -> Q.

(** The group reduction [mean] of an integer column. *)
Definition int_mean (zs : list Z) : float64 :=
  fdiv (of_int (int_sum zs)) (of_int (Z.of_nat (length zs))).

(** The group reduction [std] of an integer column (sample standard
    deviation, [ddof=1]): [nan] for a group of fewer than two rows. *)
Definition int_std (zs : list Z) : float64 :=
  if (length zs <=? 1)%nat then NaN
  else
    let n := inject_Z (Z.of_nat (length zs)) in
    let m := inject_Z (int_sum zs) / n in
    Fin (sqrt (Qsum (map (fun z => (inject_Z z - m) * (inject_Z z - m)) zs)
               / (n - 1))).

(** Lines 168-173: one row of [party_stats] per group. *)
Definition agg_group (g : string * list VoteRecord) : PartyStats :=
  let vs := map (fun r : VoteRecord => votes r) (snd g) in
  {| stat_party := fst g;
     total_votes := int_sum vs;
     avg_votes := int_mean vs;
     std_votes := int_std vs;
     count := Z.of_nat (length vs);
     avg_share := series_mean (map vote_share_pct (snd g)) |}.

Definition party_stats (df : DataFrame) : list PartyStats :=
  map agg_group (groupby (fun r : VoteRecord => party r) df).

(** Lines 176-180. *)
Definition weighted_score (st : PartyStats) : float64 :=
  fadd (fadd (fmul (of_int (total_votes st)) (Fin 0.5))
             (fmul (of_int (count st * 1000)) (Fin 0.3)))
       (fmul (fmul (avg_share st) (Fin 100)) (Fin 0.2)).

(** Line 182, one cell. *)
Definition normalise (s total : float64) : float64 :=
  round2 (fmul (fdiv s total) (Fin 100)).

(** Line 183, one cell: [total_votes] is an integer column, so the
    product is finite and [astype(int)] truncates it. *)
Definition project_votes (total : Z) : Z :=
  Qtrunc (inject_Z total * 1.05).

(** Lines 176-183: the three columns added to [party_stats]. *)
Definition scored (sts : list PartyStats) : list PartyAggregate :=
  let total := series_sum (map weighted_score sts) in
  map (fun st =>
         {| stats := st;
            score := weighted_score st;
            win_probability := normalise (weighted_score st) total;
            predicted_votes := project_votes (total_votes st) |})
      sts.

(** Line 185, [sort_values('win_probability', ascending=False)]: the rows
    whose key is not [nan] in decreasing key order, then the rows whose
    key is [nan].  Rows of equal key keep their order here; pandas'
    default sort does not promise an order among them. *)
Fixpoint insert_desc (a : PartyAggregate) (l : list PartyAggregate)
  : list PartyAggregate :=
  match l with
  | [] => [a]
  | b :: rest =>
      if fleb (win_probability b) (win_probability a) then a :: l
      else b :: insert_desc a rest
  end.

Definition sort_values_desc (rows : list PartyAggregate) : list PartyAggregate :=
  fold_right insert_desc []
    (filter (fun a => notna (win_probability a)) rows)
  ++ filter (fun a => isna (win_probability a)) rows.

Definition predict_winner_ensemble (df : DataFrame) : list PartyAggregate :=
  sort_values_desc (scored (party_stats df)).

(** The body of [predict_winner_ensemble] has no [raise], and none of the
    frame operations it uses raises on a frame that has the columns: a
    call returns. *)
Definition predict_winner_ensemble_call (df : DataFrame)
  : outcome (list PartyAggregate) :=
  Returns (predict_winner_ensemble df).

(** Lines 343-344 of [winner_prediction]:
    [winner = predict_winner_ensemble(df).iloc[0]]. *)
Definition winner_prediction (df : DataFrame) : outcome PartyAggregate :=
  iloc0 (predict_winner_ensemble df).
End Scoring.

(* ------------------------------------------------------------------------- *)
(** ** Synthesizer: [generate_election_data] (lines 74-122) *)

Definition regions : list string :=
  ["North"; "South"; "East"; "West"; "Central"].

Definition parties : list string :=
  ["Party A"; "Party B"; "Party C"; "Party D"; "Independent"].

(** [range(1, 21)]. *)
Definition const_ids : list Z := map Z.of_nat (seq 1 20).

Definition string_of_Z (z : Z) : string :=
  NilZero.string_of_int (Z.to_int z).

(** [f"{region} Constituency {const_id}"]. *)
Definition make_constituency_name (reg : string) (const_id : Z) : string :=
  (reg ++ " Constituency " ++ string_of_Z const_id)%string.

(** The bounds of [party_strength] (lines 91-100). *)
Definition strength_range (p : string) : Q * Q :=
  if String.eqb p "Party A" then (0.25, 0.35)
  else if String.eqb p "Party B" then (0.20, 0.30)
  else if String.eqb p "Party C" then (0.15, 0.25)
  else if String.eqb p "Party D" then (0.10, 0.20)
  else (0.05, 0.15).

Section Synthesizer.
(** NumPy's global random state and the four calls made on it.  Each draw
    reads the state and leaves a new one; [np.random.seed] replaces it. *)
Variable rng : Type.
Variable np_seed : Z -> rng.
Variable np_randint : Z -> Z -> rng -> Z * rng.
Variable np_uniform : Q -> Q -> rng -> Q * rng.
Variable np_choice : list string -> list Q -> rng -> string * rng.

Definition Rand (A : Type) : Type := rng -> A * rng.

Definition ret {A : Type} (a : A) : Rand A := fun s => (a, s).

Definition bind {A B : Type} (m : Rand A) (k : A -> Rand B) : Rand B :=
  fun s => let (a, s') := m s in k a s'.

Notation "x <- m ;; k" := (bind m (fun x => k))
  (at level 61, m at next level, right associativity).

(** A [for] loop whose body appends rows to [data_list]. *)
Fixpoint for_each {A B : Type} (xs : list A) (body : A -> Rand (list B))
  : Rand (list B) :=
  match xs with
  | [] => ret []
  | x :: rest =>
      here <- body x ;;
      later <- for_each rest body ;;
      ret (here ++ later)
  end.

(** Lines 89-116: the body of the loop over parties.  The dictionary
    display evaluates its values in order: the status is drawn before
    the counted fraction. *)
Definition party_row (reg : string) (const_id : Z) (name : string)
           (voters : Z) (p : string) : Rand (list Row) :=
  base_turnout <- np_uniform 0.6 0.85 ;;
  party_strength <- np_uniform (fst (strength_range p)) (snd (strength_range p)) ;;
  let v := Qtrunc (inject_Z voters * base_turnout * party_strength) in
  status <- np_choice ["Complete"; "In Progress"; "Pending"] [0.7; 0.25; 0.05] ;;
  counted <- np_uniform 0.75 0.95 ;;
  ret [ {| region := reg;
           constituency_id := const_id;
           constituency_name := name;
           total_voters := voters;
           party := p;
           votes := v;
           counting_status := status;
           counted_votes := Qtrunc (inject_Z v * counted) |} ].

(** Lines 85-116: the body of the loop over constituencies. *)
Definition constituency_rows (reg : string) (const_id : Z) : Rand (list Row) :=
  let name := make_constituency_name reg const_id in
  voters <- np_randint 50000 200000 ;;
  for_each parties (party_row reg const_id name voters).

(** Lines 82-116. *)
Definition build_data_list : Rand (list Row) :=
  for_each regions (fun reg => for_each const_ids (constituency_rows reg)).

(** Lines 77-122.  The call first reseeds the global state with 42
    whatever it was. *)
Definition generate_election_data : Rand DataFrame :=
  fun _ =>
    let (data_list, s) := build_data_list (np_seed 42) in
    (derive_columns data_list, s).
End Synthesizer.

(* ------------------------------------------------------------------------- *)
(** ** Sums, bounds and sample frames used in the statements *)

(** The plain sum of a float column: [nan] and infinities propagate. *)
Definition float_sum (xs : list float64) : float64 :=
  fold_left fadd xs (Fin 0).

(** [x] is a finite value between [lo] and [hi]. *)
Definition within (lo hi : Q) (x : float64) : Prop :=
  exists q, x = Fin q /\ lo <= q /\ q <= hi.

(** The rows of one constituency, and the sum of their vote shares. *)
Definition constituency_rows_of (c : string) (df : DataFrame) : list VoteRecord :=
  rows_with (fun r : VoteRecord => constituency_name r) c df.

Definition share_sum (c : string) (df : DataFrame) : float64 :=
  float_sum (map vote_share_pct (constituency_rows_of c df)).

(** The rows of one party, and the three figures the score is built from,
    read off the frame without grouping. *)
Definition party_rows_of (p : string) (df : DataFrame) : list VoteRecord :=
  rows_with (fun r : VoteRecord => party r) p df.

Definition party_total_votes (p : string) (df : DataFrame) : Z :=
  int_sum (map (fun r : VoteRecord => votes r) (party_rows_of p df)).

Definition party_row_count (p : string) (df : DataFrame) : Z :=
  Z.of_nat (length (party_rows_of p df)).

Definition party_avg_share (p : string) (df : DataFrame) : float64 :=
  series_mean (map vote_share_pct (party_rows_of p df)).

(** [b] may follow [a] in a frame sorted by decreasing win probability:
    the key of [b] is [nan], or it is at most the key of [a]. *)
Definition may_follow (a b : PartyAggregate) : Prop :=
  isna (win_probability b) = true \/
  fleb (win_probability b) (win_probability a) = true.

(** The row has non-negative votes and a vote share that is a non-negative
    number. *)
Definition nonneg_row (r : VoteRecord) : Prop :=
  (0 <= votes r)%Z /\ exists q, vote_share_pct r = Fin q /\ 0 <= q.

(** A row of constituency [name] (region North, 100000 voters, counting
    complete) with [v] votes for party [p]. *)
Definition sample_row (name p : string) (v : Z) : Row :=
  {| region := "North";
     constituency_id := 1;
     constituency_name := name;
     total_voters := 100000;
     party := p;
     votes := v;
     counting_status := "Complete";
     counted_votes := v |}.

(** One constituency, two parties, votes 30000 and 20000. *)
Definition two_party_rows : list Row :=
  [ sample_row "North Constituency 1" "Party A" 30000;
    sample_row "North Constituency 1" "Party B" 20000 ].

(** One constituency in which nobody voted. *)
Definition silent_rows : list Row :=
  [ sample_row "North Constituency 1" "Party A" 0;
    sample_row "North Constituency 1" "Party B" 0 ].

(** One constituency, five parties, 76000 votes. *)
Definition uneven_rows : list Row :=
  [ sample_row "North Constituency 1" "Party A" 20000;
    sample_row "North Constituency 1" "Party B" 20000;
    sample_row "North Constituency 1" "Party C" 20000;
    sample_row "North Constituency 1" "Party D" 8000;
    sample_row "North Constituency 1" "Independent" 8000 ].

(** One constituency, five parties, 60000 votes. *)
Definition close_rows : list Row :=
  [ sample_row "North Constituency 1" "Party A" 15000;
    sample_row "North Constituency 1" "Party B" 15000;
    sample_row "North Constituency 1" "Party C" 10000;
    sample_row "North Constituency 1" "Party D" 10000;
    sample_row "North Constituency 1" "Independent" 10000 ].

(** One constituency, one party, 15 votes. *)
Definition single_rows : list Row :=
  [ sample_row "North Constituency 1" "Party A" 15 ].

(** A small linear congruential generator, to run the loops of the
    synthesizer: the state is the last output, a draw scales it into the
    asked range. *)
Definition lcg_next (s : Z) : Z := ((s * 1103515245 + 12345) mod 2147483648)%Z.

Definition lcg_randint (lo hi : Z) (s : Z) : Z * Z :=
  let s' := lcg_next s in ((lo + s' mod (hi - lo))%Z, s').

Definition lcg_uniform (lo hi : Q) (s : Z) : Q * Z :=
  let s' := lcg_next s in
  (Qred (lo + (hi - lo) * (s' mod 1000 # 1000)), s').

Definition lcg_choice (options : list string) (p : list Q) (s : Z) : string * Z :=
  let s' := lcg_next s in
  (nth (Z.to_nat (s' mod Z.of_nat (length options))) options "", s').

(* ------------------------------------------------------------------------- *)
(** ** Home page: [home_page] (lines 191-240) *)

Definition ValueError : exception := PyError "ValueError".

(** [df.groupby(key)['votes'].sum()]: one total per key, in key order
    (lines 216, 226, 236, 271 and 419). *)
Definition votes_by (key : VoteRecord -> string) (df : DataFrame)
  : list (string * Z) :=
  map (fun g => (fst g, int_sum (map (fun r : VoteRecord => votes r) (snd g))))
      (groupby key df).

(** The entry of the greatest value, the first one among equals. *)
Fixpoint first_max (best : string * Z) (rest : list (string * Z)) : string * Z :=
  match rest with
  | [] => best
  | x :: rest' =>
      if (snd best <? snd x)%Z then first_max x rest' else first_max best rest'
  end.

(** [Series.idxmax()]: the label of the first greatest value; [ValueError]
    on a series without entries. *)
Definition idxmax (s : list (string * Z)) : outcome string :=
  match s with
  | [] => Raises ValueError
  | x :: rest => Returns (fst (first_max x rest))
  end.

(** Line 206: [df['votes'].sum()]. *)
Definition total_votes_metric (df : DataFrame) : Z :=
  int_sum (map (fun r : VoteRecord => votes r) df).

(** Line 209: [df['constituency_name'].nunique()]. *)
Definition constituencies_metric (df : DataFrame) : Z :=
  Z.of_nat (length (groupby (fun r : VoteRecord => constituency_name r) df)).

(** Line 212, [groupby('constituency_name')['total_voters'].first()]: the
    value of the first row of a group (a group has at least one row). *)
Definition first_total_voters (g : string * list VoteRecord) : Z :=
  match snd g with
  | [] => 0%Z
  | r :: _ => total_voters r
  end.

Definition registered_voters (df : DataFrame) : Z :=
  int_sum (map first_total_voters
               (groupby (fun r : VoteRecord => constituency_name r) df)).

(** Line 212: the turnout in percent. *)
Definition turnout_metric (df : DataFrame) : float64 :=
  fmul (fdiv (of_int (total_votes_metric df)) (of_int (registered_voters df)))
       (Fin 100).

(** Line 216: [df.groupby('party')['votes'].sum().idxmax()]. *)
Definition leading_party (df : DataFrame) : outcome string :=
  idxmax (votes_by (fun r : VoteRecord => party r) df).

(* ------------------------------------------------------------------------- *)
(** ** What the synthesizer relies on, and what it lays out *)

(** The documented ranges of the three NumPy draws: [randint(lo, hi)] is in
    [[lo, hi)], [uniform(lo, hi)] is in [[lo, hi)], [choice(options, p)] is
    one of the options. *)
Definition randint_in_range (rng : Type)
           (np_randint : Z -> Z -> rng -> Z * rng) : Prop :=
  forall lo hi s, (lo < hi)%Z ->
    (lo <= fst (np_randint lo hi s) < hi)%Z.

Definition uniform_in_range (rng : Type)
           (np_uniform : Q -> Q -> rng -> Q * rng) : Prop :=
  forall lo hi s, lo < hi ->
    lo <= fst (np_uniform lo hi s) /\ fst (np_uniform lo hi s) < hi.

Definition choice_in_options (rng : Type)
           (np_choice : list string -> list Q -> rng -> string * rng) : Prop :=
  forall options p s, options <> [] ->
    In (fst (np_choice options p s)) options.

(** The key columns of the rows of one constituency, and of the whole
    frame: regions, then constituency numbers, then parties. *)
Definition constituency_keys (c : string * Z) : list (string * Z * string * string) :=
  map (fun p => (fst c, snd c, make_constituency_name (fst c) (snd c), p))
      parties.

Definition synthesized_keys : list (string * Z * string * string) :=
  flat_map constituency_keys (list_prod regions const_ids).

Definition key_columns (r : Row) : string * Z * string * string :=
  (region r, constituency_id r, constituency_name r, party r).

(** No string of the list occurs twice. *)
Fixpoint distinctb (l : list string) : bool :=
  match l with
  | [] => true
  | x :: rest => negb (existsb (String.eqb x) rest) && distinctb rest
  end.

(** A row the synthesizer can produce when the draws stay in their ranges:
    between 50000 and 200000 voters, at least 1500 votes and fewer votes
    than voters, counted votes between 0 and the votes, one of the three
    counting statuses. *)
Definition plausible_row (r : Row) : Prop :=
  (50000 <= total_voters r < 200000)%Z /\
  (1500 <= votes r < total_voters r)%Z /\
  (0 <= counted_votes r <= votes r)%Z /\
  In (counting_status r) ["Complete"; "In Progress"; "Pending"].

(* ------------------------------------------------------------------------- *)
(** ** Counting dashboard: [counting_dashboard] (lines 284-320) *)

(** Lines 293, 297 and 301: [len(df[df['counting_status'] == status])]. *)
Definition status_count (status : string) (df : DataFrame) : Z :=
  Z.of_nat (length (filter (fun r : VoteRecord =>
                              String.eqb (counting_status r) status) df)).

(** Line 316: [df.groupby('party')['counted_votes'].sum()]. *)
Definition counted_by_party (df : DataFrame) : list (string * Z) :=
  map (fun g => (fst g, int_sum (map (fun r : VoteRecord => counted_votes r)
                                     (snd g))))
      (groupby (fun r : VoteRecord => party r) df).

(* ------------------------------------------------------------------------- *)
(** ** Voting dashboard: [voting_dashboard] (lines 242-282) *)

(** Lines 259-263: the region filter, then the party filter; ['All'] keeps
    every row. *)
Definition apply_filters (selected_region selected_party : string)
           (df : DataFrame) : DataFrame :=
  let by_region :=
    if String.eqb selected_region "All" then df
    else filter (fun r : VoteRecord => String.eqb (region r) selected_region) df in
  if String.eqb selected_party "All" then by_region
  else filter (fun r : VoteRecord => String.eqb (party r) selected_party)
              by_region.

(** [Series.nlargest(n)]: the entries by decreasing value, entries of equal
    value in their order in the series, cut after [n]. *)
Fixpoint insert_by_value (x : string * Z) (l : list (string * Z))
  : list (string * Z) :=
  match l with
  | [] => [x]
  | y :: rest =>
      if (snd y <=? snd x)%Z then x :: l else y :: insert_by_value x rest
  end.

Definition sort_by_value_desc (s : list (string * Z)) : list (string * Z) :=
  fold_right insert_by_value [] s.

Definition nlargest (n : nat) (s : list (string * Z)) : list (string * Z) :=
  firstn n (sort_by_value_desc s).

(** Line 277: the ten constituencies with most votes. *)
Definition top_constituencies (selected_region selected_party : string)
           (df : DataFrame) : list (string * Z) :=
  nlargest 10
    (votes_by (fun r : VoteRecord => constituency_name r)
              (apply_filters selected_region selected_party df)).

(* ------------------------------------------------------------------------- *)
(** ** Module 1: [module1_page] (lines 369-394) *)

(** One row of [stats] after line 377. *)
Record VoteStats : Type := {
  vs_party : string;        (* 'Party' *)
  vs_total : Z;             (* 'Total Votes' *)
  vs_mean : float64;        (* 'Mean' *)
  vs_median : float64;      (* 'Median' *)
  vs_std : float64;         (* 'Std Dev' *)
  vs_min : Z;               (* 'Min' *)
  vs_max : Z                (* 'Max' *)
}.

(** The group reductions [min] and [max] of an integer column (a group has
    at least one row). *)
Definition int_min (zs : list Z) : Z :=
  match zs with
  | [] => 0%Z
  | z :: rest => fold_left Z.min rest z
  end.

Definition int_max (zs : list Z) : Z :=
  match zs with
  | [] => 0%Z
  | z :: rest => fold_left Z.max rest z
  end.

Fixpoint insert_asc (z : Z) (l : list Z) : list Z :=
  match l with
  | [] => [z]
  | y :: rest => if (z <=? y)%Z then z :: l else y :: insert_asc z rest
  end.

Definition sort_asc (zs : list Z) : list Z := fold_right insert_asc [] zs.

(** The group reduction [median] of an integer column: the middle value of
    the sorted group, the mean of the two middle values for an even
    count. *)
Definition int_median (zs : list Z) : float64 :=
  let sorted := sort_asc zs in
  let n := length zs in
  if (n =? 0)%nat then NaN
  else if Nat.odd n then of_int (nth (n / 2) sorted 0%Z)
  else Fin ((inject_Z (nth (n / 2 - 1) sorted 0%Z)
             + inject_Z (nth (n / 2) sorted 0%Z)) / 2).

Section Module1.
Variable sqrt : Q -> Q.

(** Lines 376-377. *)
Definition module1_stats (df : DataFrame) : list VoteStats :=
  map (fun g =>
         let vs := map (fun r : VoteRecord => votes r) (snd g) in
         {| vs_party := fst g;
            vs_total := int_sum vs;
            vs_mean := int_mean vs;
            vs_median := int_median vs;
            vs_std := int_std sqrt vs;
            vs_min := int_min vs;
            vs_max := int_max vs |})
      (groupby (fun r : VoteRecord => party r) df).
End Module1.

(** Lines 386-387: the votes and the percentage of each party. *)
Definition party_share (df : DataFrame) : list (string * Z * float64) :=
  let totals := votes_by (fun r : VoteRecord => party r) df in
  let all := int_sum (map snd totals) in
  map (fun kt => (fst kt, snd kt, share_pct (snd kt) all)) totals.

(* ------------------------------------------------------------------------- *)
(** ** Module 2: [module2_page] (lines 396-426) *)

(** [df[key].unique()]: the values in order of first appearance. *)
Definition unique (key : VoteRecord -> string) (df : DataFrame) : list string :=
  map fst (groups key df).

(** Line 403: the default selection, the first three regions. *)
Definition default_regions (df : DataFrame) : list string :=
  firstn 3 (unique (fun r : VoteRecord => region r) df).

(** Line 406: [df[df['region'].isin(selected_regions)]]. *)
Definition filter_regions (selected : list string) (df : DataFrame) : DataFrame :=
  filter (fun r : VoteRecord => existsb (String.eqb (region r)) selected) df.

(** Line 425, [pivot_table(values='votes', index='region', columns='party',
    aggfunc='sum', fill_value=0)]: one row per region and one cell per
    party of the frame, both in increasing order; a cell is the sum of the
    votes of the rows of that region and party, [fill_value] where there is
    no such row. *)
Definition pivot_cell (reg p : string) (df : DataFrame) : Z :=
  match filter (fun r : VoteRecord =>
                  String.eqb (region r) reg && String.eqb (party r) p) df with
  | [] => 0%Z
  | rows => int_sum (map (fun r : VoteRecord => votes r) rows)
  end.

Definition pivot_table (df : DataFrame) : list (string * list (string * Z)) :=
  let index := map fst (groupby (fun r : VoteRecord => region r) df) in
  let columns := map fst (groupby (fun r : VoteRecord => party r) df) in
  map (fun reg => (reg, map (fun p => (p, pivot_cell reg p df)) columns)) index.

(** Lines 405-426: the bars and the cross table of the page, nothing when no
    region is selected. *)
Definition module2_tables (selected : list string) (df : DataFrame)
  : option (list (string * Z) * list (string * list (string * Z))) :=
  match selected with
  | [] => None
  | _ =>
      let filtered := filter_regions selected df in
      Some (votes_by (fun r : VoteRecord => region r) filtered,
            pivot_table filtered)
  end.

(* ------------------------------------------------------------------------- *)
(** ** Session: [login_page] (lines 128-160), [main] (lines 485-519) and the
       button of [winner_prediction] (lines 337-342)

    Streamlit runs the script once per interaction.  A run reads the values
    of the widgets it draws and the session state, may change the session
    state, and draws a screen. *)

(** [st.session_state]: the keys the script uses.  Lines 65-68 set the first
    two on the first run; ['prediction_run'] is read with
    [get('prediction_run', False)], so an absent key reads as [false]. *)
Record SessionState : Type := {
  authenticated : bool;
  election_data : option DataFrame;
  prediction_run : bool
}.

Definition initial_session : SessionState :=
  {| authenticated := false; election_data := None; prediction_run := false |}.

(** The widget values of one run. *)
Record Inputs : Type := {
  username : string;
  password : string;
  login_clicked : bool;
  demo_clicked : bool;
  page : string;
  logout_clicked : bool;
  run_clicked : bool
}.

(** What [st.error] and [st.info] show on the login form. *)
Inductive Message : Type :=
| InvalidCredentials     (* line 156 *)
| DemoInfo.              (* line 160 *)

Inductive Screen : Type :=
| LoginScreen (messages : list Message)  (* the login form and its messages *)
| Rerun                                  (* [st.rerun()] *)
| PageScreen (name : string) (data : option DataFrame) (prediction : bool)
                                         (* a page drawn from [data] *)
| SidebarOnly.                           (* no branch of the page chain taken *)

(** The labels of the navigation radio (lines 495-498). *)
Definition home_label : string := "🏠 Home".
Definition about_label : string := "ℹ️ About".
Definition voting_label : string := "📊 Voting Dashboard".
Definition counting_label : string := "🧮 Counting Dashboard".
Definition winner_label : string := "🏆 Winner Prediction".
Definition module1_label : string := "📈 Module 1: Vote Share".
Definition module2_label : string := "🗺️ Module 2: Regional Comparison".

(** The pages that read [st.session_state.election_data]; the About page
    does not. *)
Definition data_pages : list string :=
  [home_label; voting_label; counting_label; winner_label;
   module1_label; module2_label].

Section Session.
(** The frame [generate_election_data()] returns. *)
Variable generated : DataFrame.

(** Lines 148-160. *)
Definition login_page (s : SessionState) (inp : Inputs) : SessionState * Screen :=
  if login_clicked inp then
    if String.eqb (username inp) "admin"
       && String.eqb (password inp) "password123"
    then ({| authenticated := true;
             election_data := Some generated;
             prediction_run := prediction_run s |},
          Rerun)
    else (s, LoginScreen
               (InvalidCredentials
                :: if demo_clicked inp then [DemoInfo] else []))
  else (s, LoginScreen (if demo_clicked inp then [DemoInfo] else [])).

(** Lines 485-519; the Winner Prediction branch with lines 337-342. *)
Definition main (s : SessionState) (inp : Inputs) : SessionState * Screen :=
  if negb (authenticated s) then login_page s inp
  else if logout_clicked inp then
    ({| authenticated := false;
        election_data := election_data s;
        prediction_run := prediction_run s |},
     Rerun)
  else if String.eqb (page inp) home_label then
    (s, PageScreen home_label (election_data s) false)
  else if String.eqb (page inp) about_label then
    (s, PageScreen about_label None false)
  else if String.eqb (page inp) voting_label then
    (s, PageScreen voting_label (election_data s) false)
  else if String.eqb (page inp) counting_label then
    (s, PageScreen counting_label (election_data s) false)
  else if String.eqb (page inp) winner_label then
    let s' := if run_clicked inp
              then {| authenticated := authenticated s;
                      election_data := election_data s;
                      prediction_run := true |}
              else s in
    (s', PageScreen winner_label (election_data s') (prediction_run s'))
  else if String.eqb (page inp) module1_label then
    (s, PageScreen module1_label (election_data s) false)
  else if String.eqb (page inp) module2_label then
    (s, PageScreen module2_label (election_data s) false)
  else (s, SidebarOnly).

(** The session after a sequence of runs. *)
Definition run_all (s : SessionState) (inputs : list Inputs) : SessionState :=
  fold_left (fun s inp => fst (main s inp)) inputs s.
End Session.

(** Widget values for sample runs: a login attempt, and a run of an
    authenticated session on [page] with the two buttons as given. *)
Definition login_attempt (user pass : string) : Inputs :=
  {| username := user; password := pass;
     login_clicked := true; demo_clicked := false;
     page := home_label; logout_clicked := false; run_clicked := false |}.

Definition page_visit (name : string) (logout run : bool) : Inputs :=
  {| username := ""; password := "";
     login_clicked := false; demo_clicked := false;
     page := name; logout_clicked := logout; run_clicked := run |}.

(* ========================================================================= *)
(** * Properties *)

(* ------------------------------------------------------------------------- *)
(** ** Rounding *)

Lemma inject_Z_succ (z : Z) : inject_Z (z + 1) == inject_Z z + 1.
Proof. rewrite inject_Z_plus. reflexivity. Qed.

(** [rint] picks the floor or the next integer. *)
Lemma rint_cases (q : Q) :
  (rint q = Qfloor q /\ q - inject_Z (Qfloor q) <= 1 # 2) \/
  (rint q = (Qfloor q + 1)%Z /\ 1 # 2 <= q - inject_Z (Qfloor q)).
Proof.
  unfold rint.
  destruct (Qcompare_spec (q - inject_Z (Qfloor q)) (1 # 2)) as [E | L | G].
  - destruct (Z.even (Qfloor q)); [left | right]; split; trivial;
      rewrite E; apply Qle_refl.
  - left. split; trivial. apply Qlt_le_weak, L.
  - right. split; trivial. apply Qlt_le_weak, G.
Qed.

(** [rint q] is within one half of [q]. *)
Lemma rint_near (q : Q) :
  q - (1 # 2) <= inject_Z (rint q) /\ inject_Z (rint q) <= q + (1 # 2).
Proof.
  pose proof (Qfloor_le q) as Hlo.
  pose proof (Qlt_floor q) as Hhi.
  rewrite inject_Z_succ in Hhi.
  destruct (rint_cases q) as [[-> H] | [-> H]].
  - split; lra.
  - rewrite inject_Z_succ. split; lra.
Qed.

(** [rint] stays between integer bounds of its argument. *)
Lemma rint_between (a b : Z) (q : Q) :
  inject_Z a <= q -> q <= inject_Z b -> (a <= rint q <= b)%Z.
Proof.
  intros Ha Hb.
  pose proof (Qfloor_le q) as Hlo.
  assert (Hfa : (a <= Qfloor q)%Z).
  { rewrite <- (Qfloor_Z a). apply Qfloor_resp_le, Ha. }
  assert (Hfb : (Qfloor q <= b)%Z).
  { rewrite <- (Qfloor_Z b). apply Qfloor_resp_le, Hb. }
  destruct (rint_cases q) as [[-> H] | [-> H]]; [lia | ].
  split; [lia | ].
  destruct (Z.eq_dec (Qfloor q) b) as [E | N]; [ | lia].
  rewrite E in H. lra.
Qed.

Lemma Qround2_near (q : Q) :
  q - (1 # 200) <= Qround2 q /\ Qround2 q <= q + (1 # 200).
Proof.
  unfold Qround2.
  destruct (rint_near (q * 100)) as [Hlo Hhi].
  split.
  - apply Qle_shift_div_l; [reflexivity | lra].
  - apply Qle_shift_div_r; [reflexivity | lra].
Qed.

Lemma Qround2_between (q : Q) :
  0 <= q -> q <= 100 -> 0 <= Qround2 q /\ Qround2 q <= 100.
Proof.
  intros H0 H100.
  unfold Qround2.
  destruct (@rint_between 0 10000 (q * 100)) as [Hlo Hhi].
  - change (inject_Z 0) with 0. lra.
  - change (inject_Z 10000) with 10000. lra.
  - rewrite Zle_Qle in Hlo, Hhi.
    change (inject_Z 0) with 0 in Hlo.
    change (inject_Z 10000) with 10000 in Hhi.
    split.
    + apply Qle_shift_div_l; [reflexivity | lra].
    + apply Qle_shift_div_r; [reflexivity | lra].
Qed.

(* ------------------------------------------------------------------------- *)
(** ** Grouping *)

Section GroupByFacts.
Variable A : Type.
Variable key : A -> string.

Lemma groups_snoc (l : list A) (r : A) :
  groups key (l ++ [r]) = add_row key r (groups key l).
Proof. unfold groups. rewrite fold_left_app. reflexivity. Qed.

Lemma rows_with_snoc (k : string) (l : list A) (r : A) :
  rows_with key k (l ++ [r]) =
  rows_with key k l ++ (if String.eqb (key r) k then [r] else []).
Proof.
  unfold rows_with. rewrite filter_app. simpl.
  destruct (String.eqb (key r) k); reflexivity.
Qed.

Lemma get_group_add_row (k : string) (r : A) (gs : list (string * list A)) :
  get_group k (add_row key r gs) =
  if String.eqb (key r) k then get_group k gs ++ [r] else get_group k gs.
Proof.
  induction gs as [ | [k' rows] gs IH]; simpl.
  - rewrite (String.eqb_sym k). destruct (String.eqb (key r) k); reflexivity.
  - destruct (String.eqb (key r) k') eqn:E1; simpl.
    + apply String.eqb_eq in E1. subst k'.
      rewrite (String.eqb_sym k).
      destruct (String.eqb (key r) k); reflexivity.
    + destruct (String.eqb k k') eqn:E2.
      * apply String.eqb_eq in E2. subst k'. rewrite E1. reflexivity.
      * apply IH.
Qed.

(** The group of [k] holds the rows of key [k], in the frame's order. *)
Lemma get_group_groups (k : string) (l : list A) :
  get_group k (groups key l) = rows_with key k l.
Proof.
  induction l as [ | r l IH] using rev_ind.
  - reflexivity.
  - rewrite groups_snoc, get_group_add_row, rows_with_snoc, IH.
    destruct (String.eqb (key r) k); [reflexivity | ].
    rewrite app_nil_r. reflexivity.
Qed.

Lemma keys_add_row (r : A) (gs : list (string * list A)) :
  map fst (add_row key r gs) =
  if existsb (String.eqb (key r)) (map fst gs) then map fst gs
  else map fst gs ++ [key r].
Proof.
  induction gs as [ | [k' rows] gs IH]; simpl; [reflexivity | ].
  destruct (String.eqb (key r) k') eqn:E; simpl.
  - apply String.eqb_eq in E. subst k'. reflexivity.
  - rewrite IH.
    destruct (existsb (String.eqb (key r)) (map fst gs)); reflexivity.
Qed.

Lemma existsb_eqb_In (k : string) (ks : list string) :
  existsb (String.eqb k) ks = true <-> In k ks.
Proof.
  rewrite existsb_exists. split.
  - intros [x [Hin E]]. apply String.eqb_eq in E. subst x. exact Hin.
  - intros Hin. exists k. split; [exact Hin | apply String.eqb_refl].
Qed.

(** One group per distinct key. *)
Lemma groups_keys_NoDup (l : list A) : NoDup (map fst (groups key l)).
Proof.
  induction l as [ | r l IH] using rev_ind.
  - constructor.
  - rewrite groups_snoc, keys_add_row.
    destruct (existsb (String.eqb (key r)) (map fst (groups key l))) eqn:E;
      [exact IH | ].
    apply NoDup_app; [exact IH | repeat constructor; intros [] | ].
    intros k Hin [<- | []].
    apply existsb_eqb_In in Hin. congruence.
Qed.

(** The keys of the groups are the keys that occur in the frame. *)
Lemma groups_keys_In (k : string) (l : list A) :
  In k (map fst (groups key l)) <-> In k (map key l).
Proof.
  revert k. induction l as [ | r l IH] using rev_ind; intros k.
  - simpl. tauto.
  - rewrite groups_snoc, keys_add_row, map_app, in_app_iff. simpl.
    destruct (existsb (String.eqb (key r)) (map fst (groups key l))) eqn:E.
    + apply existsb_eqb_In, IH in E. rewrite IH.
      split; [tauto | ]. intros [H | [<- | []]]; assumption.
    + rewrite in_app_iff, IH. simpl. tauto.
Qed.

Lemma get_group_In (k : string) (rows : list A) (gs : list (string * list A)) :
  NoDup (map fst gs) -> In (k, rows) gs -> get_group k gs = rows.
Proof.
  induction gs as [ | [k' rows'] gs IH]; simpl; intros Hnd Hin; [tauto | ].
  inversion Hnd as [ | ? ? Hnotin Hnd']; subst.
  destruct Hin as [E | Hin].
  - inversion E; subst. rewrite String.eqb_refl. reflexivity.
  - destruct (String.eqb k k') eqn:E.
    + apply String.eqb_eq in E. subst k'.
      exfalso. apply Hnotin. apply (in_map fst) in Hin. exact Hin.
    + apply IH; assumption.
Qed.

Lemma get_group_notin (k : string) (gs : list (string * list A)) :
  ~ In k (map fst gs) -> get_group k gs = [].
Proof.
  induction gs as [ | [k' rows'] gs IH]; simpl; intros Hnotin; [reflexivity | ].
  destruct (String.eqb k k') eqn:E.
  - apply String.eqb_eq in E. subst k'. tauto.
  - apply IH. tauto.
Qed.

Lemma In_get_group (k : string) (gs : list (string * list A)) :
  In k (map fst gs) -> In (k, get_group k gs) gs.
Proof.
  induction gs as [ | [k' rows'] gs IH]; simpl; intros Hin; [tauto | ].
  destruct (String.eqb k k') eqn:E.
  - apply String.eqb_eq in E. subst k'. left. reflexivity.
  - right. apply IH. destruct Hin as [E' | Hin]; [ | exact Hin].
    subst k'. rewrite String.eqb_refl in E. discriminate.
Qed.

Lemma insert_group_perm (g : string * list A) (gs : list (string * list A)) :
  Permutation (insert_group g gs) (g :: gs).
Proof.
  induction gs as [ | h gs IH]; simpl; [reflexivity | ].
  destruct (String.leb (fst g) (fst h)); [reflexivity | ].
  rewrite IH. apply perm_swap.
Qed.

(** Sorting the index only reorders the groups. *)
Lemma sort_index_perm (gs : list (string * list A)) :
  Permutation (sort_index gs) gs.
Proof.
  induction gs as [ | g gs IH]; simpl; [reflexivity | ].
  rewrite insert_group_perm, IH. reflexivity.
Qed.

Lemma groupby_keys_NoDup (l : list A) : NoDup (map fst (groupby key l)).
Proof.
  unfold groupby.
  eapply Permutation_NoDup; [ | apply groups_keys_NoDup].
  apply Permutation_map, Permutation_sym, sort_index_perm.
Qed.

Lemma groupby_keys_In (k : string) (l : list A) :
  In k (map fst (groupby key l)) <-> In k (map key l).
Proof.
  rewrite <- groups_keys_In. unfold groupby.
  split; apply Permutation_in, Permutation_map;
    [ | apply Permutation_sym]; apply sort_index_perm.
Qed.

(** The rows of key [k] are not empty when [k] occurs in the frame. *)
Lemma rows_with_nonempty (k : string) (l : list A) :
  In k (map key l) -> rows_with key k l <> [].
Proof.
  intros Hin E. apply in_map_iff in Hin. destruct Hin as [r [Hk Hr]].
  assert (Hf : In r (rows_with key k l)).
  { apply filter_In. split; [exact Hr | ]. apply String.eqb_eq, Hk. }
  rewrite E in Hf. exact Hf.
Qed.

Lemma rows_with_notin (k : string) (l : list A) :
  ~ In k (map key l) -> rows_with key k l = [].
Proof.
  intros Hnotin. unfold rows_with.
  induction l as [ | r l IH]; simpl in *; [reflexivity | ].
  destruct (String.eqb (key r) k) eqn:E.
  - apply String.eqb_eq in E. tauto.
  - apply IH. tauto.
Qed.

(** [groupby] in terms of the frame: the group of [k] is the list of the
    rows of key [k]. *)
Lemma get_group_groupby (k : string) (l : list A) :
  get_group k (groupby key l) = rows_with key k l.
Proof.
  rewrite <- get_group_groups.
  destruct (in_dec string_dec k (map fst (groups key l))) as [Hin | Hnotin].
  - apply get_group_In; [apply groupby_keys_NoDup | ].
    unfold groupby.
    apply (Permutation_in _ (Permutation_sym (sort_index_perm _))).
    apply In_get_group, Hin.
  - rewrite (get_group_notin _ _ Hnotin).
    apply get_group_notin.
    rewrite groupby_keys_In, <- groups_keys_In. exact Hnotin.
Qed.

Lemma groupby_In (k : string) (rows : list A) (l : list A) :
  In (k, rows) (groupby key l) <->
  In k (map key l) /\ rows = rows_with key k l.
Proof.
  split.
  - intros Hin. split.
    + apply groupby_keys_In. apply (in_map fst) in Hin. exact Hin.
    + rewrite <- get_group_groupby. symmetry.
      apply get_group_In; [apply groupby_keys_NoDup | exact Hin].
  - intros [Hk ->]. rewrite <- get_group_groupby.
    apply In_get_group, groupby_keys_In, Hk.
Qed.
End GroupByFacts.

(* ------------------------------------------------------------------------- *)
(** ** Sums *)

Lemma fold_left_Zadd (zs : list Z) (a : Z) :
  fold_left Z.add zs a = (a + fold_right Z.add 0 zs)%Z.
Proof.
  revert a. induction zs as [ | z zs IH]; intros a; simpl.
  - lia.
  - rewrite IH. lia.
Qed.

Lemma int_sum_cons (z : Z) (zs : list Z) :
  int_sum (z :: zs) = (z + int_sum zs)%Z.
Proof. unfold int_sum. simpl. rewrite !fold_left_Zadd. lia. Qed.

Lemma fold_left_Qplus (qs : list Q) (a : Q) :
  fold_left Qplus qs a == a + fold_right Qplus 0 qs.
Proof.
  revert a. induction qs as [ | q qs IH]; intros a; simpl.
  - lra.
  - rewrite IH. lra.
Qed.

Lemma Qsum_cons (q : Q) (qs : list Q) : Qsum (q :: qs) == q + Qsum qs.
Proof. unfold Qsum. simpl. rewrite !fold_left_Qplus. lra. Qed.

(** The sum of finite values is finite. *)
Lemma fold_left_fadd_Fin (qs : list Q) (a : Q) :
  fold_left fadd (map Fin qs) (Fin a) = Fin (fold_left Qplus qs a).
Proof.
  revert a. induction qs as [ | q qs IH]; intros a; simpl.
  - reflexivity.
  - apply IH.
Qed.

Lemma float_sum_Fin (qs : list Q) : float_sum (map Fin qs) = Fin (Qsum qs).
Proof. apply fold_left_fadd_Fin. Qed.

Lemma filter_notna_Fin (qs : list Q) : filter notna (map Fin qs) = map Fin qs.
Proof.
  induction qs as [ | q qs IH]; simpl; [reflexivity | ]. rewrite IH. reflexivity.
Qed.

Lemma series_sum_Fin (qs : list Q) : series_sum (map Fin qs) = Fin (Qsum qs).
Proof. unfold series_sum. rewrite filter_notna_Fin. apply fold_left_fadd_Fin. Qed.

Lemma int_sum_nonneg (zs : list Z) :
  (forall z, In z zs -> (0 <= z)%Z) -> (0 <= int_sum zs)%Z.
Proof.
  induction zs as [ | z zs IH]; intros H.
  - unfold int_sum. simpl. lia.
  - rewrite int_sum_cons.
    assert (0 <= z)%Z by (apply H; left; reflexivity).
    assert (0 <= int_sum zs)%Z by (apply IH; intros; apply H; right; assumption).
    lia.
Qed.

(** A term of a sum of non-negative integers is at most the sum. *)
Lemma int_sum_ge_term (zs : list Z) (z : Z) :
  (forall y, In y zs -> (0 <= y)%Z) -> In z zs -> (z <= int_sum zs)%Z.
Proof.
  induction zs as [ | y zs IH]; intros H Hin; [destruct Hin | ].
  rewrite int_sum_cons.
  assert (0 <= y)%Z by (apply H; left; reflexivity).
  assert (Hrest : forall y', In y' zs -> (0 <= y')%Z)
    by (intros; apply H; right; assumption).
  pose proof (int_sum_nonneg _ Hrest).
  destruct Hin as [-> | Hin]; [lia | ].
  specialize (IH Hrest Hin). lia.
Qed.

Lemma inject_Z_int_sum (zs : list Z) :
  inject_Z (int_sum zs) == Qsum (map inject_Z zs).
Proof.
  induction zs as [ | z zs IH].
  - reflexivity.
  - rewrite int_sum_cons, inject_Z_plus. simpl map. rewrite Qsum_cons, IH.
    reflexivity.
Qed.

(* ------------------------------------------------------------------------- *)
(** ** Derivation step *)

Lemma filter_map_comm (A B : Type) (f : B -> bool) (g : A -> B) (l : list A) :
  filter f (map g l) = map g (filter (fun a => f (g a)) l).
Proof.
  induction l as [ | a l IH]; simpl; [reflexivity | ].
  destruct (f (g a)); simpl; rewrite IH; reflexivity.
Qed.

(** The derived columns are added beside the raw ones, which stay. *)
Lemma base_derive_columns (rows : list Row) :
  map base (derive_columns rows) = rows.
Proof.
  unfold derive_columns. rewrite map_map. simpl. apply map_id.
Qed.

(** The total of a row is the sum of the votes of its constituency. *)
Lemma group_total_spec (rows : list Row) (r : Row) :
  group_total rows r =
  int_sum (map votes (rows_with constituency_name (constituency_name r) rows)).
Proof. unfold group_total. rewrite get_group_groupby. reflexivity. Qed.

Lemma share_pct_nonzero (v total : Z) :
  total <> 0%Z ->
  share_pct v total = Fin (Qround2 (inject_Z v / inject_Z total * 100)).
Proof.
  intros H. unfold share_pct, of_int, fdiv, Qis_zero. simpl Qnum.
  destruct (Z.eqb_spec total 0) as [E | _]; [contradiction | reflexivity].
Qed.

(** With a zero total the share is never a number. *)
Lemma share_pct_zero (v : Z) :
  share_pct v 0 =
  if (v =? 0)%Z then NaN else if (v <? 0)%Z then NInf else PInf.
Proof.
  unfold share_pct, of_int, fdiv, Qis_zero, Qis_neg. simpl.
  destruct (v =? 0)%Z; [reflexivity | ].
  destruct (v <? 0)%Z; reflexivity.
Qed.

Lemma derive_columns_In (rows : list Row) (d : VoteRecord) :
  In d (derive_columns rows) ->
  In (base d) rows /\
  total_constituency_votes d = group_total rows d /\
  vote_share_pct d = share_pct (votes d) (total_constituency_votes d).
Proof.
  unfold derive_columns. intros Hin. apply in_map_iff in Hin.
  destruct Hin as [r [<- Hr]]. simpl. auto.
Qed.

Lemma constituency_rows_derive (c : string) (rows : list Row) :
  constituency_rows_of c (derive_columns rows) =
  map (fun r =>
         let total := int_sum (map votes (rows_with constituency_name c rows)) in
         {| base := r;
            total_constituency_votes := total;
            vote_share_pct := share_pct (votes r) total |})
      (rows_with constituency_name c rows).
Proof.
  unfold constituency_rows_of, rows_with, derive_columns.
  rewrite filter_map_comm. simpl.
  apply map_ext_in. intros r Hr. apply filter_In in Hr.
  destruct Hr as [_ Hc]. apply String.eqb_eq in Hc.
  rewrite group_total_spec, Hc. reflexivity.
Qed.

(** Scaling every term of a sum scales the sum. *)
Lemma Qsum_scaled (t : Q) (qs : list Q) :
  ~ t == 0 ->
  Qsum (map (fun q => q / t * 100) qs) == Qsum qs / t * 100.
Proof.
  intros Ht. induction qs as [ | q qs IH].
  - unfold Qsum. simpl. field. exact Ht.
  - simpl map. rewrite !Qsum_cons, IH. field. exact Ht.
Qed.

(** Exact shares add up to the share of the sum. *)
Lemma Qsum_exact_shares (t : Q) (vs : list Z) :
  ~ t == 0 ->
  Qsum (map (fun v => inject_Z v / t * 100) vs) ==
  inject_Z (int_sum vs) / t * 100.
Proof.
  intros Ht.
  rewrite <- (map_map inject_Z (fun q => q / t * 100)).
  rewrite (Qsum_scaled _ Ht), inject_Z_int_sum. reflexivity.
Qed.

(** Rounding each term moves a sum by at most half a hundredth per term. *)
Lemma Qsum_rounded_near (A : Type) (f : A -> Q) (l : list A) :
  Qsum (map f l) - inject_Z (Z.of_nat (length l)) * (1 # 200)
    <= Qsum (map (fun v => Qround2 (f v)) l) /\
  Qsum (map (fun v => Qround2 (f v)) l)
    <= Qsum (map f l) + inject_Z (Z.of_nat (length l)) * (1 # 200).
Proof.
  induction l as [ | v l [IHlo IHhi]].
  - split; vm_compute; intro H; discriminate H.
  - simpl map. simpl length. rewrite !Qsum_cons.
    rewrite Nat2Z.inj_succ. unfold Z.succ. rewrite inject_Z_plus.
    change (inject_Z 1) with 1.
    destruct (Qround2_near (f v)) as [Hlo Hhi].
    split; lra.
Qed.

Lemma own_group (rows : list Row) (r : Row) :
  In r rows -> In r (rows_with constituency_name (constituency_name r) rows).
Proof.
  intros Hin. apply filter_In. split; [exact Hin | apply String.eqb_refl].
Qed.

(** C3 (amended): when the votes of a frame are non-negative, every row of a
    constituency whose [total_constituency_votes] is 0 gets the
    [vote_share_pct] [nan] from the derivation step; the step raises
    nothing and does not put 0 there. *)
Theorem zero_total_share_is_nan (rows : list Row) (d : VoteRecord) :
  (forall r, In r rows -> (0 <= votes r)%Z) ->
  In d (derive_columns rows) ->
  total_constituency_votes d = 0%Z ->
  vote_share_pct d = NaN.
Proof.
  intros Hnonneg Hd Hzero.
  destruct (derive_columns_In _ _ Hd) as [Hbase [Htotal Hshare]].
  rewrite Hshare, Hzero, share_pct_zero.
  rewrite Htotal, group_total_spec in Hzero.
  assert (Hle : (votes d <= 0)%Z).
  { rewrite <- Hzero. apply int_sum_ge_term.
    - intros y Hy. apply in_map_iff in Hy. destruct Hy as [r [<- Hr]].
      apply Hnonneg. apply filter_In in Hr. tauto.
    - apply in_map, own_group, Hbase. }
  pose proof (Hnonneg _ Hbase) as Hge.
  replace (votes d) with 0%Z by lia. reflexivity.
Qed.

Lemma zero_total_share_is_nan_witness :
  Forall (fun d => vote_share_pct d = NaN) (derive_columns silent_rows).
Proof.
  apply Forall_forall. intros d Hd.
  apply (zero_total_share_is_nan silent_rows d).
  - intros r [<- | [<- | []]]; simpl; lia.
  - exact Hd.
  - vm_compute in Hd. destruct Hd as [<- | [<- | []]]; reflexivity.
Defined.

(** C3, as stated, fails on a constituency in which nobody voted: the total
    is 0 and the share is [nan], not 0. *)
Lemma zero_total_share_not_zero :
  exists d,
    In d (derive_columns silent_rows) /\
    total_constituency_votes d = 0%Z /\
    vote_share_pct d = NaN /\
    ~ within 0 0 (vote_share_pct d).
Proof.
  exists {| base := sample_row "North Constituency 1" "Party A" 0;
            total_constituency_votes := 0;
            vote_share_pct := NaN |}.
  split; [left; reflexivity | ].
  split; [reflexivity | ].
  split; [reflexivity | ].
  intros [q [E _]]. discriminate E.
Qed.

(** C6 (amended): for every constituency of a derived frame whose votes do
    not add up to 0, the [vote_share_pct] of its [n] rows add up to 100
    within [n * 0.005]: each share is rounded to the hundredth on its
    own. *)
Theorem share_sum_tolerance (rows : list Row) (c : string) :
  int_sum (map votes (rows_with constituency_name c rows)) <> 0%Z ->
  let n := inject_Z (Z.of_nat (length (rows_with constituency_name c rows))) in
  within (100 - n * (1 # 200)) (100 + n * (1 # 200))
         (share_sum c (derive_columns rows)).
Proof.
  intros Htotal n. subst n.
  set (group := rows_with constituency_name c rows) in *.
  set (total := int_sum (map votes group)) in *.
  set (exact := fun v => inject_Z v / inject_Z total * 100).
  assert (Hshares :
    map vote_share_pct (constituency_rows_of c (derive_columns rows)) =
    map Fin (map (fun v => Qround2 (exact v)) (map votes group))).
  { rewrite constituency_rows_derive. fold group. fold total.
    rewrite !map_map. apply map_ext. intros r. simpl.
    apply share_pct_nonzero, Htotal. }
  unfold share_sum. rewrite Hshares, float_sum_Fin.
  eexists. split; [reflexivity | ].
  assert (Hq : ~ inject_Z total == 0).
  { intros E. apply Htotal. rewrite <- (Qfloor_Z total), E. reflexivity. }
  pose proof (Qsum_exact_shares (map votes group) Hq) as Hexact.
  fold exact in Hexact. fold total in Hexact.
  assert (H100 : Qsum (map exact (map votes group)) == 100).
  { rewrite Hexact. field. exact Hq. }
  destruct (Qsum_rounded_near exact (map votes group)) as [Hlo Hhi].
  rewrite H100, length_map in Hlo, Hhi.
  split; assumption.
Qed.

Lemma share_sum_tolerance_witness :
  within (100 - 2 * (1 # 200)) (100 + 2 * (1 # 200))
         (share_sum "North Constituency 1" (derive_columns two_party_rows)).
Proof.
  apply (share_sum_tolerance two_party_rows "North Constituency 1").
  vm_compute. discriminate.
Defined.

(** C6, as stated, fails: with votes 20000, 20000, 20000, 8000 and 8000 the
    shares are 26.32 three times and 10.53 twice, which add up to 100.02. *)
Lemma share_sum_above_tolerance :
  exists q,
    share_sum "North Constituency 1" (derive_columns uneven_rows) = Fin q /\
    q == 100.02 /\
    ~ within 99.99 100.01
        (share_sum "North Constituency 1" (derive_columns uneven_rows)).
Proof.
  eexists. split; [vm_compute; reflexivity | ].
  split; [reflexivity | ].
  intros [q [E [_ Hhi]]].
  vm_compute in E. injection E as <-.
  vm_compute in Hhi. apply Hhi. reflexivity.
Qed.

(** C9: the derivation step is idempotent.  It reads [constituency_name]
    and [votes] only, leaves the raw columns as they are and replaces the
    two derived columns, so deriving a derived frame gives the same frame:
    the same totals (no vote is counted twice) and the same shares. *)
Theorem derive_idempotent (df : DataFrame) :
  derive (derive df) = derive df /\
  map base (derive df) = map base df /\
  map total_constituency_votes (derive (derive df)) =
    map (fun r : VoteRecord =>
           int_sum (map votes
                      (rows_with constituency_name (constituency_name r)
                                 (map base df))))
        df.
Proof.
  assert (Hbase : map base (derive df) = map base df)
    by apply base_derive_columns.
  assert (Hidem : derive (derive df) = derive df).
  { unfold derive at 1. rewrite Hbase. reflexivity. }
  split; [exact Hidem | ]. split; [exact Hbase | ].
  rewrite Hidem. unfold derive, derive_columns. rewrite !map_map. simpl.
  apply map_ext. intros r. apply group_total_spec.
Qed.

(** Deriving the frame the synthesizer returns changes nothing. *)
Lemma derive_derive_columns (rows : list Row) :
  derive (derive_columns rows) = derive_columns rows.
Proof. unfold derive. rewrite base_derive_columns. reflexivity. Qed.

(** The scenario of a constituency of 50000 votes split 30000 / 20000. *)
Example two_party_shares :
  map (fun d => (total_constituency_votes d, vote_share_pct d))
      (derive_columns two_party_rows)
  = [(50000%Z, Fin 60.00); (50000%Z, Fin 40.00)].
Proof. vm_compute. reflexivity. Qed.

(* ------------------------------------------------------------------------- *)
(** ** Float sums do not depend on the order of the terms *)

Lemma Qplus_comm_eq (a b : Q) : a + b = b + a.
Proof.
  destruct a as [a1 a2], b as [b1 b2]. unfold Qplus. simpl.
  f_equal; [ring | apply Pos.mul_comm].
Qed.

Lemma Qplus_assoc_eq (a b c : Q) : a + b + c = a + (b + c).
Proof.
  destruct a as [a1 a2], b as [b1 b2], c as [c1 c2]. unfold Qplus. simpl.
  f_equal; [ | symmetry; apply Pos.mul_assoc].
  rewrite !Pos2Z.inj_mul. ring.
Qed.

Lemma fadd_comm (x y : float64) : fadd x y = fadd y x.
Proof.
  destruct x, y; simpl; try reflexivity. f_equal. apply Qplus_comm_eq.
Qed.

Lemma fadd_assoc (x y z : float64) : fadd (fadd x y) z = fadd x (fadd y z).
Proof.
  destruct x, y, z; simpl; try reflexivity. f_equal. apply Qplus_assoc_eq.
Qed.

Lemma fold_left_fadd_perm (l l' : list float64) :
  Permutation l l' -> forall a, fold_left fadd l a = fold_left fadd l' a.
Proof.
  induction 1 as [ | x l l' _ IH | x y l | l l' l'' _ IH1 _ IH2]; intros a; simpl.
  - reflexivity.
  - apply IH.
  - f_equal. rewrite !fadd_assoc. f_equal. apply fadd_comm.
  - rewrite IH1. apply IH2.
Qed.



Lemma float_sum_perm (l l' : list float64) :
  Permutation l l' -> float_sum l = float_sum l'.
Proof. intros H. apply fold_left_fadd_perm, H. Qed.

(* ------------------------------------------------------------------------- *)
(** ** Ordering of the prediction *)

Lemma fleb_total (x y : float64) :
  notna x = true -> notna y = true -> fleb x y = true \/ fleb y x = true.
Proof.
  destruct x as [a | | | ], y as [b | | | ]; simpl; intros Hx Hy;
    try discriminate; auto.
  rewrite !Qle_bool_iff.
  destruct (Qlt_le_dec b a) as [H | H]; [right; apply Qlt_le_weak, H | left; exact H].
Qed.

Lemma fleb_trans (x y z : float64) :
  fleb x y = true -> fleb y z = true -> fleb x z = true.
Proof.
  destruct x as [a | | | ], y as [b | | | ], z as [c | | | ]; simpl;
    intros Hxy Hyz; try discriminate; try reflexivity.
  rewrite Qle_bool_iff in *. eapply Qle_trans; eassumption.
Qed.

Lemma insert_desc_perm (a : PartyAggregate) (l : list PartyAggregate) :
  Permutation (insert_desc a l) (a :: l).
Proof.
  induction l as [ | b l IH]; simpl; [reflexivity | ].
  destruct (fleb (win_probability b) (win_probability a)); [reflexivity | ].
  rewrite IH. apply perm_swap.
Qed.

Lemma isort_desc_perm (l : list PartyAggregate) :
  Permutation (fold_right insert_desc [] l) l.
Proof.
  induction l as [ | a l IH]; simpl; [reflexivity | ].
  rewrite insert_desc_perm, IH. reflexivity.
Qed.

Lemma filter_split_perm (A : Type) (f : A -> bool) (l : list A) :
  Permutation (filter f l ++ filter (fun a => negb (f a)) l) l.
Proof.
  induction l as [ | a l IH]; simpl; [reflexivity | ].
  destruct (f a); simpl.
  - constructor. exact IH.
  - rewrite <- Permutation_middle. constructor. exact IH.
Qed.

(** Sorting reorders the rows and loses none. *)
Lemma sort_values_desc_perm (rows : list PartyAggregate) :
  Permutation (sort_values_desc rows) rows.
Proof.
  unfold sort_values_desc.
  rewrite isort_desc_perm.
  rewrite <- (filter_split_perm (fun a => notna (win_probability a)) rows) at 3.
  apply Permutation_app_head.
  erewrite filter_ext; [reflexivity | ].
  intros a. unfold notna. rewrite negb_involutive. reflexivity.
Qed.

Lemma insert_desc_sorted (a : PartyAggregate) (l : list PartyAggregate) :
  notna (win_probability a) = true ->
  Forall (fun b => notna (win_probability b) = true) l ->
  StronglySorted may_follow l ->
  StronglySorted may_follow (insert_desc a l).
Proof.
  intros Ha Hl Hs. induction Hs as [ | b l Hs IH Hb]; simpl.
  - repeat constructor.
  - inversion Hl as [ | ? ? Hnb Hl']; subst.
    destruct (fleb (win_probability b) (win_probability a)) eqn:E.
    + constructor; [constructor; assumption | ].
      constructor; [right; exact E | ].
      rewrite Forall_forall in *. intros c Hc.
      destruct (Hb c Hc) as [Hna | Hle]; [left; exact Hna | right].
      eapply fleb_trans; eassumption.
    + constructor; [apply IH, Hl' | ].
      rewrite Forall_forall. intros c Hc.
      apply (Permutation_in _ (insert_desc_perm a l)) in Hc.
      destruct Hc as [<- | Hc].
      * right. destruct (fleb_total _ _ Hnb Ha) as [H | H]; congruence.
      * rewrite Forall_forall in Hb. apply Hb, Hc.
Qed.

Lemma isort_desc_sorted (l : list PartyAggregate) :
  Forall (fun b => notna (win_probability b) = true) l ->
  StronglySorted may_follow (fold_right insert_desc [] l).
Proof.
  induction 1 as [ | a l Ha Hl IH]; simpl; [constructor | ].
  apply insert_desc_sorted; [exact Ha | | exact IH].
  rewrite Forall_forall in *. intros b Hb.
  apply Hl. apply (Permutation_in _ (isort_desc_perm l)), Hb.
Qed.

Lemma StronglySorted_app (A : Type) (R : A -> A -> Prop) (l1 l2 : list A) :
  StronglySorted R l1 -> StronglySorted R l2 ->
  (forall a b, In a l1 -> In b l2 -> R a b) ->
  StronglySorted R (l1 ++ l2).
Proof.
  intros H1 H2 H12. induction H1 as [ | a l1 H1 IH Ha]; simpl; [exact H2 | ].
  constructor.
  - apply IH. intros x y Hx Hy. apply H12; [right; exact Hx | exact Hy].
  - rewrite Forall_forall in *. intros b Hb. apply in_app_or in Hb.
    destruct Hb as [Hb | Hb]; [apply Ha, Hb | apply H12; [left; reflexivity | exact Hb]].
Qed.

Lemma all_nan_sorted (l : list PartyAggregate) :
  Forall (fun b => isna (win_probability b) = true) l ->
  StronglySorted may_follow l.
Proof.
  induction 1 as [ | a l Ha Hl IH]; constructor; [exact IH | ].
  rewrite Forall_forall in *. intros b Hb. left. apply Hl, Hb.
Qed.

Lemma sort_values_desc_sorted (rows : list PartyAggregate) :
  StronglySorted may_follow (sort_values_desc rows).
Proof.
  unfold sort_values_desc. apply StronglySorted_app.
  - apply isort_desc_sorted. apply Forall_forall. intros b Hb.
    apply filter_In in Hb. tauto.
  - apply all_nan_sorted. apply Forall_forall. intros b Hb.
    apply filter_In in Hb. tauto.
  - intros a b _ Hb. left. apply filter_In in Hb. tauto.
Qed.

(* ------------------------------------------------------------------------- *)
(** ** Scoring step *)

Section ScoringFacts.
Variable sqrt : Q -> Q.

Lemma predict_perm (df : DataFrame) :
  Permutation (predict_winner_ensemble sqrt df)
              (scored (party_stats sqrt df)).
Proof. apply sort_values_desc_perm. Qed.

Lemma scored_In (sts : list PartyStats) (a : PartyAggregate) :
  In a (scored sts) <->
  In (stats a) sts /\
  score a = weighted_score a /\
  win_probability a =
    normalise (score a) (series_sum (map score (scored sts))) /\
  predicted_votes a = project_votes (total_votes a).
Proof.
  assert (Hscores : map score (scored sts) = map weighted_score sts).
  { unfold scored. rewrite map_map. reflexivity. }
  rewrite Hscores. unfold scored. rewrite in_map_iff. split.
  - intros [st [<- Hst]]. simpl. auto.
  - intros [Hst [Hs [Hw Hp]]]. exists (stats a). split; [ | exact Hst].
    destruct a as [st s w p]. simpl in *. subst. reflexivity.
Qed.

Lemma party_stats_In (df : DataFrame) (st : PartyStats) :
  In st (party_stats sqrt df) <->
  In (stat_party st) (map (fun r : VoteRecord => party r) df) /\
  st = agg_group sqrt (stat_party st, party_rows_of (stat_party st) df).
Proof.
  unfold party_stats. rewrite in_map_iff. split.
  - intros [[k rows] [<- Hg]]. apply groupby_In in Hg.
    destruct Hg as [Hk ->]. simpl. auto.
  - intros [Hk E]. eexists. split; [symmetry; exact E | ].
    apply groupby_In. auto.
Qed.

Lemma party_stats_keys (df : DataFrame) :
  map stat_party (party_stats sqrt df) =
  map fst (groupby (fun r : VoteRecord => party r) df).
Proof. unfold party_stats. rewrite map_map. reflexivity. Qed.

Lemma scored_keys (sts : list PartyStats) :
  map (fun a : PartyAggregate => stat_party a) (scored sts) =
  map stat_party sts.
Proof. unfold scored. rewrite map_map. reflexivity. Qed.

Lemma predict_keys_perm (df : DataFrame) :
  Permutation
    (map (fun a : PartyAggregate => stat_party a)
         (predict_winner_ensemble sqrt df))
    (map fst (groupby (fun r : VoteRecord => party r) df)).
Proof.
  rewrite <- party_stats_keys, <- scored_keys.
  apply Permutation_map, predict_perm.
Qed.
End ScoringFacts.

(** The aggregated figures of a row of the prediction, read off the frame. *)
Lemma predict_row_figures (sqrt : Q -> Q) (df : DataFrame) (a : PartyAggregate) :
  In a (predict_winner_ensemble sqrt df) ->
  total_votes a = party_total_votes (stat_party a) df /\
  count a = party_row_count (stat_party a) df /\
  avg_share a = party_avg_share (stat_party a) df.
Proof.
  intros Ha.
  apply (Permutation_in _ (predict_perm sqrt df)) in Ha. apply scored_In in Ha.
  destruct Ha as [Hst _].
  apply party_stats_In in Hst. destruct Hst as [_ Hagg].
  repeat split.
  - apply (f_equal total_votes) in Hagg. exact Hagg.
  - apply (f_equal count) in Hagg. simpl in Hagg.
    rewrite length_map in Hagg. exact Hagg.
  - apply (f_equal avg_share) in Hagg. exact Hagg.
Qed.



(** The prediction on the two-party scenario, column by column. *)
Example two_party_prediction :
  map (fun a : PartyAggregate =>
         (stat_party a, total_votes a, count a, avg_share a, score a,
          win_probability a, predicted_votes a))
      (predict_winner_ensemble Qsqrt (derive_columns two_party_rows))
  = [("Party A", 30000%Z, 1%Z, Fin 60.00, Fin 16500.00000, Fin 59.78, 31500%Z);
     ("Party B", 20000%Z, 1%Z, Fin 40.00, Fin 11100.00000, Fin 40.22, 21000%Z)].
Proof. vm_compute. reflexivity. Qed.

(** C2 (amended): on a frame without rows the scoring step raises nothing;
    it returns the frame without rows (there is no row to divide in and no
    row is made up).  The [IndexError] comes later, when the caller reads
    [iloc[0]]. *)
Theorem empty_frame_returns_empty (sqrt : Q -> Q) :
  predict_winner_ensemble_call sqrt [] = Returns [] /\
  winner_prediction sqrt [] = Raises IndexError.
Proof. split; reflexivity. Qed.

(** C2, as stated, fails: the call on the empty frame returns, it does not
    raise [EmptyInputError]. *)
Lemma empty_frame_no_error :
  predict_winner_ensemble_call Qsqrt [] = Returns [] /\
  predict_winner_ensemble_call Qsqrt [] <> Raises (PyError "EmptyInputError").
Proof. split; [reflexivity | discriminate]. Qed.

Lemma Qtrunc_times_105 (z : Z) :
  Qtrunc (inject_Z z * 1.05) = (z * 21 ÷ 20)%Z.
Proof.
  unfold Qtrunc. simpl.
  replace (z * 105)%Z with (z * 21 * 5)%Z by ring.
  change 100%Z with (20 * 5)%Z.
  apply Z.quot_mul_cancel_r; discriminate.
Qed.

(** C4 (amended): [predicted_votes] is the party's [total_votes] times 1.05
    with the fraction cut off (truncation toward zero, the floor for
    non-negative votes); it is not rounded to the nearest integer. *)
Theorem predicted_votes_truncates (sqrt : Q -> Q) (df : DataFrame) :
  forall a, In a (predict_winner_ensemble sqrt df) ->
    predicted_votes a = (party_total_votes (stat_party a) df * 21 ÷ 20)%Z /\
    ((0 <= party_total_votes (stat_party a) df)%Z ->
     inject_Z (predicted_votes a) <= inject_Z (total_votes a) * 1.05 /\
     inject_Z (total_votes a) * 1.05 < inject_Z (predicted_votes a) + 1).
Proof.
  intros a Ha.
  destruct (predict_row_figures sqrt df a Ha) as [Htotal _].
  apply (Permutation_in _ (predict_perm sqrt df)) in Ha.
  apply scored_In in Ha. destruct Ha as [_ [_ [_ Hp]]].
  unfold project_votes in Hp. rewrite Qtrunc_times_105 in Hp.
  rewrite <- Htotal. split; [exact Hp | ].
  intros Hnonneg. rewrite Hp.
  assert (H20 : (0 < 20)%Z) by lia.
  assert (H21 : (0 <= total_votes a * 21)%Z) by lia.
  rewrite Z.quot_div_nonneg by lia.
  pose proof (Z.mul_div_le (total_votes a * 21) 20 H20) as Hlo.
  pose proof (Z.mul_succ_div_gt (total_votes a * 21) 20 H20) as Hhi.
  set (d := (total_votes a * 21 / 20)%Z) in *.
  assert (E : inject_Z (total_votes a) * 1.05
              == inject_Z (total_votes a * 21) / 20).
  { rewrite inject_Z_mult. change (inject_Z 21) with 21. field. }
  rewrite E. split.
  - apply Qle_shift_div_l; [reflexivity | ].
    change 20 with (inject_Z 20). rewrite <- inject_Z_mult, <- Zle_Qle. lia.
  - apply Qlt_shift_div_r; [reflexivity | ].
    change 1 with (inject_Z 1). rewrite <- inject_Z_plus.
    change 20 with (inject_Z 20). rewrite <- inject_Z_mult, <- Zlt_Qlt. lia.
Qed.

Lemma predicted_votes_truncates_witness :
  Forall (fun a : PartyAggregate =>
            predicted_votes a = 15%Z /\
            inject_Z (predicted_votes a) <= inject_Z (total_votes a) * 1.05)
         (predict_winner_ensemble Qsqrt (derive_columns single_rows)).
Proof.
  apply Forall_forall. intros a Ha.
  destruct (predicted_votes_truncates Qsqrt (derive_columns single_rows) a Ha)
    as [H Hbounds].
  vm_compute in Ha. destruct Ha as [<- | []].
  split; [reflexivity | ].
  destruct Hbounds as [Hlo _]; [vm_compute; discriminate | exact Hlo].
Defined.

(** C4, as stated, fails: a party with 15 votes has 15.75 projected votes,
    the nearest integer is 16 and the column holds 15. *)
Lemma predicted_votes_not_rounded :
  exists a,
    In a (predict_winner_ensemble Qsqrt (derive_columns single_rows)) /\
    total_votes a = 15%Z /\
    predicted_votes a = 15%Z /\
    rint (inject_Z (total_votes a) * 1.05) = 16%Z /\
    predicted_votes a <> rint (inject_Z (total_votes a) * 1.05).
Proof.
  eexists. split; [vm_compute; left; reflexivity | ].
  repeat split. discriminate.
Qed.




(* ------------------------------------------------------------------------- *)
(** ** Scores of frames with non-negative votes and shares *)

Lemma all_Fin (P : Q -> Prop) (xs : list float64) :
  (forall x, In x xs -> exists q, x = Fin q /\ P q) ->
  exists qs, xs = map Fin qs /\ Forall P qs.
Proof.
  induction xs as [ | x xs IH]; intros H.
  - exists []. split; [reflexivity | constructor].
  - destruct (H x (or_introl eq_refl)) as [q [-> Hq]].
    destruct IH as [qs [-> Hqs]].
    { intros y Hy. apply H. right. exact Hy. }
    exists (q :: qs). split; [reflexivity | constructor; assumption].
Qed.

Lemma Qsum_nonneg (qs : list Q) : Forall (Qle 0) qs -> 0 <= Qsum qs.
Proof.
  induction 1 as [ | q qs Hq _ IH].
  - apply Qle_refl.
  - rewrite Qsum_cons. lra.
Qed.

Lemma Qsum_ge_term (qs : list Q) (q : Q) :
  Forall (Qle 0) qs -> In q qs -> q <= Qsum qs.
Proof.
  induction 1 as [ | y qs Hy Hqs IH]; intros Hin; [destruct Hin | ].
  rewrite Qsum_cons. pose proof (Qsum_nonneg Hqs).
  destruct Hin as [-> | Hin]; [lra | ]. specialize (IH Hin). lra.
Qed.

Lemma Forall_lt_le (qs : list Q) : Forall (Qlt 0) qs -> Forall (Qle 0) qs.
Proof.
  intros H. eapply Forall_impl; [ | exact H]. intros q. apply Qlt_le_weak.
Qed.

Lemma Qsum_pos (qs : list Q) : qs <> [] -> Forall (Qlt 0) qs -> 0 < Qsum qs.
Proof.
  intros Hne H. destruct H as [ | q qs Hq Hqs]; [contradiction | ].
  rewrite Qsum_cons. pose proof (Qsum_nonneg (Forall_lt_le Hqs)). lra.
Qed.

Lemma Qpos_not_zero (q : Q) : 0 < q -> Qis_zero q = false.
Proof.
  intros H. unfold Qis_zero. apply Z.eqb_neq. intros E.
  destruct q as [n d]. simpl in E. subst n. discriminate H.
Qed.

(** The mean of finite values. *)
Lemma series_mean_Fin (qs : list Q) :
  qs <> [] ->
  series_mean (map Fin qs) =
  Fin (Qsum qs / inject_Z (Z.of_nat (length qs))).
Proof.
  intros Hne. unfold series_mean. rewrite filter_notna_Fin.
  destruct qs as [ | q qs]; [contradiction | ].
  change (map Fin (q :: qs)) with (Fin q :: map Fin qs).
  cbv iota.
  change (Fin q :: map Fin qs) with (map Fin (q :: qs)).
  rewrite fold_left_fadd_Fin, length_map.
  unfold of_int, fdiv.
  rewrite Qpos_not_zero; [reflexivity | ].
  rewrite <- (Zlt_Qlt 0). simpl length. lia.
Qed.

Section NonNegativeFrames.
Variable sqrt : Q -> Q.
Variable df : DataFrame.
Hypothesis Hrows : forall r, In r df -> nonneg_row r.

Lemma party_stats_nonneg (st : PartyStats) :
  In st (party_stats sqrt df) ->
  (0 <= total_votes st)%Z /\ (1 <= count st)%Z /\
  exists m, avg_share st = Fin m /\ 0 <= m.
Proof.
  intros Hst. apply party_stats_In in Hst. destruct Hst as [Hk Hagg].
  pose proof (rows_with_nonempty (fun r : VoteRecord => party r) _ _ Hk) as Hne.
  fold (party_rows_of (stat_party st) df) in Hne.
  set (rows := party_rows_of (stat_party st) df) in *.
  assert (Hsub : forall r, In r rows -> nonneg_row r).
  { intros r Hr. apply Hrows. apply filter_In in Hr. tauto. }
  rewrite Hagg. simpl. repeat split.
  - apply int_sum_nonneg. intros z Hz. apply in_map_iff in Hz.
    destruct Hz as [r [<- Hr]]. apply Hsub, Hr.
  - rewrite length_map. destruct rows; [contradiction | simpl length; lia].
  - destruct (@all_Fin (Qle 0) (map vote_share_pct rows)) as [qs [E Hqs]].
    { intros x Hx. apply in_map_iff in Hx. destruct Hx as [r [<- Hr]].
      apply Hsub in Hr. destruct Hr as [_ Hq]. exact Hq. }
    assert (Hqne : qs <> []).
    { intros ->. destruct rows; [contradiction | discriminate E]. }
    rewrite E, (series_mean_Fin Hqne). eexists. split; [reflexivity | ].
    apply Qle_shift_div_l.
    + rewrite <- (Zlt_Qlt 0). destruct qs; [contradiction | simpl length; lia].
    + pose proof (Qsum_nonneg Hqs). lra.
Qed.

(** Every score is a number, at least 300 per row of the party. *)
Lemma weighted_score_bound (st : PartyStats) :
  In st (party_stats sqrt df) ->
  exists s, weighted_score st = Fin s /\
            inject_Z (count st) * 300 <= s /\ 0 < s.
Proof.
  intros Hst.
  destruct (party_stats_nonneg _ Hst) as [Htv [Hcount [m [Hm Hm0]]]].
  unfold weighted_score. rewrite Hm. simpl.
  eexists. split; [reflexivity | ].
  rewrite inject_Z_mult. change (inject_Z 1000) with 1000.
  rewrite (Zle_Qle 0) in Htv. rewrite (Zle_Qle 1) in Hcount.
  change (inject_Z 0) with 0 in Htv. change (inject_Z 1) with 1 in Hcount.
  split; lra.
Qed.

Hypothesis Hnonempty : df <> [].

Lemma party_stats_nonempty : party_stats sqrt df <> [].
Proof.
  assert (Hrow : exists r, In r df).
  { destruct df as [ | r rest] eqn:E; [contradiction | ].
    exists r. left. reflexivity. }
  destruct Hrow as [r Hr].
  assert (Hin : In (party r)
                   (map fst (groupby (fun r : VoteRecord => party r) df))).
  { apply groupby_keys_In, in_map_iff. exists r. auto. }
  rewrite <- (party_stats_keys sqrt) in Hin.
  intros E. rewrite E in Hin. exact Hin.
Qed.

(** The scores as a list of positive rationals. *)
Lemma scores_positive :
  exists qs,
    map weighted_score (party_stats sqrt df) = map Fin qs /\
    Forall (Qlt 0) qs /\ qs <> [].
Proof.
  destruct (@all_Fin (Qlt 0) (map weighted_score (party_stats sqrt df)))
    as [qs [E Hqs]].
  { intros x Hx. apply in_map_iff in Hx. destruct Hx as [st [<- Hst]].
    destruct (weighted_score_bound _ Hst) as [s [Hs [_ Hpos]]]. eauto. }
  exists qs. repeat split; try assumption.
  intros ->. pose proof party_stats_nonempty as Hne.
  destruct (party_stats sqrt df); [contradiction | discriminate E].
Qed.
End NonNegativeFrames.

Lemma normalise_Fin (q total : Q) :
  Qis_zero total = false ->
  normalise (Fin q) (Fin total) = Fin (Qround2 (q / total * 100)).
Proof. intros H. unfold normalise, fdiv. rewrite H. reflexivity. Qed.

Lemma scored_scores (sts : list PartyStats) :
  map score (scored sts) = map weighted_score sts.
Proof. unfold scored. rewrite map_map. reflexivity. Qed.

Lemma scored_win_probabilities (sts : list PartyStats) :
  map win_probability (scored sts) =
  map (fun s => normalise s (series_sum (map weighted_score sts)))
      (map weighted_score sts).
Proof. unfold scored. rewrite !map_map. reflexivity. Qed.


Lemma two_party_rows_nonneg :
  forall r, In r (derive_columns two_party_rows) -> nonneg_row r.
Proof.
  intros r Hr. vm_compute in Hr.
  destruct Hr as [<- | [<- | []]]; (split; [simpl; lia | ]);
    eexists; (split; [reflexivity | ]); vm_compute; discriminate.
Defined.


(** C7 (amended): on a frame that is not empty and whose votes and vote
    shares are non-negative numbers, every [win_probability] lies in
    [0, 100], and the [win_probability] of the [n] rows of the output add up
    to 100 within [n * 0.005]: each is rounded to the hundredth on its
    own. *)
Theorem win_probability_sum_tolerance (sqrt : Q -> Q) (df : DataFrame) :
  (forall r, In r df -> nonneg_row r) ->
  df <> [] ->
  let out := predict_winner_ensemble sqrt df in
  let n := inject_Z (Z.of_nat (length out)) in
  within (100 - n * (1 # 200)) (100 + n * (1 # 200))
         (float_sum (map win_probability out)) /\
  (forall a, In a out -> within 0 100 (win_probability a)).
Proof.
  intros Hrows Hne out n. subst out n.
  pose proof (predict_perm sqrt df) as Hperm.
  destruct (@scores_positive sqrt df Hrows Hne) as [qs [E [Hpos Hqne]]].
  pose proof (Qsum_pos Hqne Hpos) as Htotal.
  set (total := Qsum qs) in *.
  set (exact := fun q => q / total * 100).
  assert (Hwp : map win_probability (scored (party_stats sqrt df)) =
                map Fin (map (fun q => Qround2 (exact q)) qs)).
  { rewrite scored_win_probabilities, E, series_sum_Fin, !map_map.
    apply map_ext. intros q. apply normalise_Fin, Qpos_not_zero, Htotal. }
  assert (Hlen : length (predict_winner_ensemble sqrt df) = length qs).
  { rewrite (Permutation_length Hperm).
    rewrite <- (length_map win_probability), Hwp, !length_map. reflexivity. }
  assert (Hnz : ~ total == 0) by lra.
  split.
  - rewrite (float_sum_perm (Permutation_map win_probability Hperm)).
    rewrite Hwp, float_sum_Fin, Hlen.
    eexists. split; [reflexivity | ].
    assert (H100 : Qsum (map exact qs) == 100).
    { unfold exact. rewrite (Qsum_scaled _ Hnz). fold total. field. exact Hnz. }
    destruct (Qsum_rounded_near exact qs) as [Hlo Hhi].
    rewrite H100 in Hlo, Hhi. split; assumption.
  - intros a Ha.
    apply (in_map win_probability) in Ha.
    apply (Permutation_in _ (Permutation_map win_probability Hperm)) in Ha.
    rewrite Hwp, map_map in Ha. apply in_map_iff in Ha.
    destruct Ha as [q [<- Hq]].
    eexists. split; [reflexivity | ].
    pose proof (@Qsum_ge_term qs q (Forall_lt_le Hpos) Hq) as Hle. fold total in Hle.
    rewrite Forall_forall in Hpos. pose proof (Hpos q Hq) as Hq0.
    apply Qround2_between; unfold exact.
    + assert (0 <= q / total).
      { apply Qle_shift_div_l; [exact Htotal | lra]. }
      lra.
    + assert (q / total <= 1).
      { apply Qle_shift_div_r; [exact Htotal | lra]. }
      lra.
Qed.

Lemma win_probability_sum_tolerance_witness :
  within (100 - 2 * (1 # 200)) (100 + 2 * (1 # 200))
         (float_sum
            (map win_probability
                 (predict_winner_ensemble Qsqrt (derive_columns two_party_rows)))).
Proof.
  destruct (@win_probability_sum_tolerance Qsqrt (derive_columns two_party_rows))
    as [H _].
  - exact two_party_rows_nonneg.
  - vm_compute. discriminate.
  - exact H.
Defined.

(** C7, as stated, fails: with votes 15000, 15000, 10000, 10000 and 10000 in
    one constituency the scores are 8300 twice and 5633.4 three times, the
    win probabilities 24.78 twice and 16.82 three times, which add up to
    100.02. *)
Lemma win_probability_sum_above_tolerance :
  exists q,
    float_sum
      (map win_probability
           (predict_winner_ensemble Qsqrt (derive_columns close_rows)))
    = Fin q /\
    q == 100.02 /\
    ~ within (100 - 0.01) (100 + 0.01)
        (float_sum
           (map win_probability
                (predict_winner_ensemble Qsqrt (derive_columns close_rows)))).
Proof.
  eexists. split; [vm_compute; reflexivity | ].
  split; [reflexivity | ].
  intros [q [E [_ Hhi]]].
  vm_compute in E. injection E as <-.
  vm_compute in Hhi. apply Hhi. reflexivity.
Qed.

(** The frame of that counterexample, column by column. *)
Example close_prediction :
  map (fun a : PartyAggregate =>
         (stat_party a, total_votes a, avg_share a, score a, win_probability a))
      (predict_winner_ensemble Qsqrt (derive_columns close_rows))
  = [("Party A", 15000%Z, Fin 25.00, Fin 8300.00000, Fin 24.78);
     ("Party B", 15000%Z, Fin 25.00, Fin 8300.00000, Fin 24.78);
     ("Independent", 10000%Z, Fin 16.67, Fin 5633.40000, Fin 16.82);
     ("Party C", 10000%Z, Fin 16.67, Fin 5633.40000, Fin 16.82);
     ("Party D", 10000%Z, Fin 16.67, Fin 5633.40000, Fin 16.82)].
Proof. vm_compute. reflexivity. Qed.

(* ------------------------------------------------------------------------- *)
(** ** Synthesizer *)

(** C5: the synthesizer is deterministic.  The call reseeds NumPy's global
    state with 42 before the first draw, so the frame it returns (every
    column of every row) and the state it leaves do not depend on the state
    it finds: two calls, also one after the other, return the same frame. *)
Theorem synthesizer_deterministic
        (rng : Type) (np_seed : Z -> rng)
        (np_randint : Z -> Z -> rng -> Z * rng)
        (np_uniform : Q -> Q -> rng -> Q * rng)
        (np_choice : list string -> list Q -> rng -> string * rng) :
  let synthesize := generate_election_data np_seed np_randint np_uniform np_choice in
  (forall s1 s2 : rng, synthesize s1 = synthesize s2) /\
  (forall s : rng,
     fst (synthesize (snd (synthesize s))) = fst (synthesize s)) /\
  (forall s1 s2 : rng,
     map (fun r : VoteRecord => (votes r, counting_status r)) (fst (synthesize s1)) =
     map (fun r : VoteRecord => (votes r, counting_status r)) (fst (synthesize s2))).
Proof.
  intros synthesize.
  assert (H : forall s1 s2, synthesize s1 = synthesize s2)
    by (intros; reflexivity).
  split; [exact H | ].
  split; intros; f_equal; f_equal; apply H.
Qed.

(** The loops alone, started from two different states, build different
    lists: the reseeding at line 77 is what makes the call repeatable. *)
Example unseeded_loops_depend_on_state :
  map votes (firstn 2 (fst (build_data_list lcg_randint lcg_uniform lcg_choice 1%Z)))
  <> map votes (firstn 2 (fst (build_data_list lcg_randint lcg_uniform lcg_choice 2%Z))).
Proof. vm_compute. discriminate. Qed.

(* ------------------------------------------------------------------------- *)
(** ** Group totals *)

Lemma int_sum_app (xs ys : list Z) :
  int_sum (xs ++ ys) = (int_sum xs + int_sum ys)%Z.
Proof.
  induction xs as [ | x xs IH].
  - change (int_sum ys = (0 + int_sum ys)%Z). lia.
  - change ((x :: xs) ++ ys) with (x :: (xs ++ ys)).
    rewrite !int_sum_cons, IH. lia.
Qed.

Lemma int_sum_perm (xs ys : list Z) :
  Permutation xs ys -> int_sum xs = int_sum ys.
Proof.
  induction 1 as [ | x l l' _ IH | x y l | l l' l'' _ IH1 _ IH2].
  - reflexivity.
  - rewrite !int_sum_cons, IH. reflexivity.
  - rewrite !int_sum_cons. lia.
  - congruence.
Qed.

Lemma int_sum_nil : int_sum [] = 0%Z.
Proof. reflexivity. Qed.

Section GroupSums.
Variable A : Type.
Variable key : A -> string.
Variable f : A -> Z.

Lemma sum_of_groups_add_row (r : A) (gs : list (string * list A)) :
  int_sum (map (fun g => int_sum (map f (snd g))) (add_row key r gs)) =
  (int_sum (map (fun g => int_sum (map f (snd g))) gs) + f r)%Z.
Proof.
  induction gs as [ | [k rows] gs IH]; simpl.
  - rewrite !int_sum_cons, !int_sum_nil. lia.
  - destruct (String.eqb (key r) k); simpl.
    + rewrite !int_sum_cons, map_app, int_sum_app. simpl.
      rewrite int_sum_cons, int_sum_nil. lia.
    + rewrite !int_sum_cons, IH. lia.
Qed.

(** Grouping loses and repeats no row: the group sums add up to the sum
    over the frame. *)
Lemma groupby_sum_conserved (l : list A) :
  int_sum (map (fun g => int_sum (map f (snd g))) (groupby key l)) =
  int_sum (map f l).
Proof.
  unfold groupby.
  rewrite (int_sum_perm (Permutation_map _ (sort_index_perm (groups key l)))).
  induction l as [ | r l IH] using rev_ind.
  - reflexivity.
  - rewrite groups_snoc, sum_of_groups_add_row, IH, map_app, int_sum_app.
    simpl. rewrite int_sum_cons, int_sum_nil. lia.
Qed.
End GroupSums.
(* ------------------------------------------------------------------------- *)
(** ** Home page *)

Lemma votes_by_keys (key : VoteRecord -> string) (df : DataFrame) :
  map fst (votes_by key df) = map fst (groupby key df).
Proof. unfold votes_by. rewrite map_map. reflexivity. Qed.

Lemma votes_by_In (key : VoteRecord -> string) (df : DataFrame)
      (k : string) (t : Z) :
  In (k, t) (votes_by key df) <->
  In k (map key df) /\
  t = int_sum (map (fun r : VoteRecord => votes r) (rows_with key k df)).
Proof.
  unfold votes_by. rewrite in_map_iff. split.
  - intros [[k' rows] [E Hg]]. simpl in E. inversion E; subst.
    apply groupby_In in Hg. destruct Hg as [Hk ->]. auto.
  - intros [Hk ->]. exists (k, rows_with key k df). split; [reflexivity | ].
    apply groupby_In. auto.
Qed.

(** X1: The totals of [groupby(key)['votes'].sum()] split the votes of the
    frame: one entry per key that occurs, each the sum of the votes of the
    rows of that key, and together the sum of all votes. *)
Theorem votes_by_partition (key : VoteRecord -> string) (df : DataFrame) :
  NoDup (map fst (votes_by key df)) /\
  (forall k t,
      In (k, t) (votes_by key df) <->
      In k (map key df) /\
      t = int_sum (map (fun r : VoteRecord => votes r) (rows_with key k df))) /\
  int_sum (map snd (votes_by key df)) = total_votes_metric df.
Proof.
  split; [rewrite votes_by_keys; apply groupby_keys_NoDup | ].
  split; [intros k t; apply votes_by_In | ].
  unfold votes_by, total_votes_metric. rewrite map_map. simpl.
  apply (groupby_sum_conserved key (fun r : VoteRecord => votes r)).
Qed.

Lemma first_max_In (best : string * Z) (rest : list (string * Z)) :
  In (first_max best rest) (best :: rest).
Proof.
  revert best. induction rest as [ | x rest IH]; intros best; simpl.
  - left. reflexivity.
  - destruct (snd best <? snd x)%Z.
    + right. apply IH.
    + destruct (IH best) as [H | H]; [left; exact H | right; right; exact H].
Qed.

Lemma first_max_ge (best : string * Z) (rest : list (string * Z)) :
  forall x, In x (best :: rest) -> (snd x <= snd (first_max best rest))%Z.
Proof.
  revert best. induction rest as [ | y rest IH]; intros best x Hx.
  - destruct Hx as [<- | []]. simpl. lia.
  - simpl. destruct (Z.ltb_spec (snd best) (snd y)) as [Hlt | Hge].
    + pose proof (IH y y (or_introl eq_refl)) as Hy.
      destruct Hx as [<- | Hx]; [lia | apply IH, Hx].
    + pose proof (IH best best (or_introl eq_refl)) as Hb.
      destruct Hx as [<- | [<- | Hx]]; [exact Hb | lia | ].
      apply IH. right. exact Hx.
Qed.

(** X2: The "Leading Party" metric of [home_page]: on a frame without rows
    [idxmax] raises [ValueError]; otherwise the metric is a party of the
    frame whose votes are not exceeded by those of any party of the frame. *)
Theorem leading_party_max (df : DataFrame) :
  (df = [] -> leading_party df = Raises ValueError) /\
  (df <> [] ->
   exists p,
     leading_party df = Returns p /\
     In p (map (fun r : VoteRecord => party r) df) /\
     forall q, In q (map (fun r : VoteRecord => party r) df) ->
               (party_total_votes q df <= party_total_votes p df)%Z).
Proof.
  split; [intros ->; reflexivity | ].
  intros Hne. unfold leading_party, idxmax.
  destruct (votes_by (fun r : VoteRecord => party r) df) as [ | x rest] eqn:E.
  - exfalso. destruct df as [ | r df']; [contradiction | ].
    assert (Hin : In (party r)
                     (map fst (votes_by (fun r : VoteRecord => party r) (r :: df')))).
    { rewrite votes_by_keys. apply groupby_keys_In. left. reflexivity. }
    rewrite E in Hin. exact Hin.
  - pose proof (first_max_In x rest) as Hin.
    pose proof (@first_max_ge x rest) as Hge.
    rewrite <- E in Hin.
    destruct (first_max x rest) as [p t] eqn:Ep.
    apply votes_by_In in Hin. destruct Hin as [Hp Ht].
    exists p. split; [reflexivity | ]. split; [exact Hp | ].
    intros q Hq.
    assert (Hqin : In (q, party_total_votes q df) (x :: rest)).
    { rewrite <- E. apply votes_by_In. split; [exact Hq | reflexivity]. }
    apply Hge in Hqin. simpl in Hqin. unfold party_total_votes at 2.
    unfold party_rows_of. rewrite <- Ht. exact Hqin.
Qed.

Lemma leading_party_max_witness :
  exists p,
    leading_party (derive_columns close_rows) = Returns p /\
    p = "Party A" /\
    Forall (fun q => (party_total_votes q (derive_columns close_rows)
                      <= party_total_votes p (derive_columns close_rows))%Z)
           (map (fun r : VoteRecord => party r) (derive_columns close_rows)).
Proof.
  destruct (leading_party_max (derive_columns close_rows)) as [_ H].
  destruct H as [p [Hp [_ Hmax]]]; [vm_compute; discriminate | ].
  exists p. split; [exact Hp | ].
  split; [vm_compute in Hp; injection Hp as <-; reflexivity | ].
  apply Forall_forall. exact Hmax.
Defined.
(* ------------------------------------------------------------------------- *)
(** ** More on the scoring step *)

Lemma predict_length (sqrt : Q -> Q) (df : DataFrame) :
  length (predict_winner_ensemble sqrt df) =
  length (groupby (fun r : VoteRecord => party r) df).
Proof.
  rewrite (Permutation_length (predict_perm sqrt df)).
  unfold scored, party_stats. rewrite !length_map. reflexivity.
Qed.

Lemma groupby_nil_iff (A : Type) (key : A -> string) (l : list A) :
  groupby key l = [] <-> l = [].
Proof.
  split; [ | intros ->; reflexivity].
  intros E. destruct l as [ | r l]; [reflexivity | exfalso].
  assert (Hin : In (key r) (map fst (groupby key (r :: l))))
    by (apply groupby_keys_In; left; reflexivity).
  rewrite E in Hin. exact Hin.
Qed.

Lemma predict_nil_iff (sqrt : Q -> Q) (df : DataFrame) :
  predict_winner_ensemble sqrt df = [] <-> df = [].
Proof.
  rewrite <- (groupby_nil_iff (fun r : VoteRecord => party r) df).
  pose proof (predict_length sqrt df) as Hlen.
  split; intros E; rewrite E in Hlen; simpl in Hlen.
  - destruct (groupby (fun r : VoteRecord => party r) df);
      [reflexivity | discriminate].
  - destruct (predict_winner_ensemble sqrt df); [reflexivity | discriminate].
Qed.

(** X3: [winner_prediction] reads [iloc[0]] of the prediction: it raises
    [IndexError] exactly on a frame without rows; on any other frame it
    gets a row, and that row is the row of a party of the frame. *)
Theorem winner_exists_iff_rows (sqrt : Q -> Q) (df : DataFrame) :
  (winner_prediction sqrt df = Raises IndexError <-> df = []) /\
  (df <> [] ->
   exists w, winner_prediction sqrt df = Returns w /\
             In w (predict_winner_ensemble sqrt df) /\
             In (stat_party w) (map (fun r : VoteRecord => party r) df)).
Proof.
  unfold winner_prediction.
  pose proof (predict_nil_iff sqrt df) as Hnil.
  pose proof (predict_keys_perm sqrt df) as Hkeys.
  destruct (predict_winner_ensemble sqrt df) as [ | w rest]; simpl.
  - split; [tauto | ]. intros Hne. exfalso. apply Hne, Hnil. reflexivity.
  - split.
    + split; [discriminate | ]. intros E. apply Hnil in E. discriminate E.
    + intros _. exists w. split; [reflexivity | ].
      split; [left; reflexivity | ].
      apply (groupby_keys_In (fun r : VoteRecord => party r)).
      apply (Permutation_in _ Hkeys). left. reflexivity.
Qed.

Lemma winner_exists_iff_rows_witness :
  exists w,
    winner_prediction Qsqrt (derive_columns two_party_rows) = Returns w /\
    stat_party w = "Party A".
Proof.
  destruct (winner_exists_iff_rows Qsqrt (derive_columns two_party_rows))
    as [_ H].
  destruct H as [w [Hw _]]; [vm_compute; discriminate | ].
  exists w. split; [exact Hw | ].
  vm_compute in Hw. injection Hw as <-. reflexivity.
Defined.

Lemma int_sum_ones (A : Type) (l : list A) :
  int_sum (map (fun _ => 1%Z) l) = Z.of_nat (length l).
Proof.
  induction l as [ | a l IH]; [reflexivity | ].
  simpl map. rewrite int_sum_cons, IH. simpl length. lia.
Qed.

(** X4: The scoring step keeps every vote and every row: the [total_votes] of
    its output add up to the votes of the frame, and the [count] column
    adds up to the number of rows of the frame. *)
Theorem prediction_totals_conserved (sqrt : Q -> Q) (df : DataFrame) :
  int_sum (map (fun a : PartyAggregate => total_votes a)
               (predict_winner_ensemble sqrt df))
  = total_votes_metric df /\
  int_sum (map (fun a : PartyAggregate => count a)
               (predict_winner_ensemble sqrt df))
  = Z.of_nat (length df).
Proof.
  pose proof (predict_perm sqrt df) as Hperm.
  split.
  - rewrite (int_sum_perm (Permutation_map _ Hperm)).
    unfold scored, party_stats. rewrite !map_map. simpl.
    apply (groupby_sum_conserved (fun r : VoteRecord => party r)
                                 (fun r : VoteRecord => votes r)).
  - rewrite (int_sum_perm (Permutation_map _ Hperm)).
    unfold scored, party_stats. rewrite !map_map. simpl.
    rewrite <- (int_sum_ones df).
    rewrite <- (groupby_sum_conserved (fun r : VoteRecord => party r)
                                      (fun _ => 1%Z) df).
    f_equal. apply map_ext. intros g.
    rewrite length_map, int_sum_ones. reflexivity.
Qed.

(** X5: With non-negative votes the projection never lowers a total:
    [0 <= total_votes <= predicted_votes]. *)
Theorem predicted_votes_not_below (sqrt : Q -> Q) (df : DataFrame) :
  (forall r, In r df -> (0 <= votes r)%Z) ->
  forall a, In a (predict_winner_ensemble sqrt df) ->
    (0 <= total_votes a <= predicted_votes a)%Z.
Proof.
  intros Hnonneg a Ha.
  destruct (predict_row_figures sqrt df a Ha) as [Htotal _].
  apply (Permutation_in _ (predict_perm sqrt df)) in Ha.
  apply scored_In in Ha. destruct Ha as [_ [_ [_ Hp]]].
  assert (H0 : (0 <= total_votes a)%Z).
  { rewrite Htotal. apply int_sum_nonneg. intros z Hz.
    apply in_map_iff in Hz. destruct Hz as [r [<- Hr]].
    apply Hnonneg. apply filter_In in Hr. tauto. }
  split; [exact H0 | ].
  rewrite Hp. unfold project_votes. rewrite Qtrunc_times_105.
  rewrite Z.quot_div_nonneg by lia.
  apply Z.div_le_lower_bound; lia.
Qed.

Lemma predicted_votes_not_below_witness :
  Forall (fun a : PartyAggregate => (0 <= total_votes a <= predicted_votes a)%Z)
         (predict_winner_ensemble Qsqrt (derive_columns two_party_rows)).
Proof.
  apply Forall_forall.
  apply (predicted_votes_not_below Qsqrt (derive_columns two_party_rows)).
  intros r Hr. vm_compute in Hr.
  destruct Hr as [<- | [<- | []]]; simpl; lia.
Defined.

Lemma rint_le_floor_succ (q : Q) : (Qfloor q <= rint q <= Qfloor q + 1)%Z.
Proof. destruct (rint_cases q) as [[-> _] | [-> _]]; lia. Qed.

(** [rint] is monotone. *)
Lemma rint_monotone (p q : Q) : p <= q -> (rint p <= rint q)%Z.
Proof.
  intros Hpq.
  pose proof (Qfloor_resp_le _ _ Hpq) as Hfloor.
  pose proof (rint_le_floor_succ p) as Hp.
  pose proof (rint_le_floor_succ q) as Hq.
  destruct (Z.eq_dec (Qfloor p) (Qfloor q)) as [E | N]; [ | lia].
  unfold rint. rewrite E.
  destruct (Qcompare_spec (p - inject_Z (Qfloor q)) (1 # 2)) as [Ep | Lp | Gp];
    destruct (Qcompare_spec (q - inject_Z (Qfloor q)) (1 # 2)) as [Eq' | Lq | Gq];
    try lia; try (destruct (Z.even (Qfloor q)); lia); exfalso; lra.
Qed.

Lemma Qround2_monotone (p q : Q) : p <= q -> Qround2 p <= Qround2 q.
Proof.
  intros Hpq. unfold Qround2.
  assert (H : (rint (p * 100) <= rint (q * 100))%Z)
    by (apply rint_monotone; lra).
  rewrite Zle_Qle in H.
  apply Qle_shift_div_l; [reflexivity | ].
  unfold Qdiv. rewrite <- Qmult_assoc.
  setoid_replace (/ 100 * 100) with 1 by reflexivity.
  rewrite Qmult_1_r. exact H.
Qed.

Lemma scores_total_positive (sqrt : Q -> Q) (df : DataFrame) :
  (forall r, In r df -> nonneg_row r) ->
  df <> [] ->
  exists total,
    series_sum (map score (scored (party_stats sqrt df))) = Fin total /\
    0 < total.
Proof.
  intros Hrows Hne.
  destruct (@scores_positive sqrt df Hrows Hne) as [qs [E [Hpos Hqne]]].
  exists (Qsum qs). rewrite scored_scores, E, series_sum_Fin.
  split; [reflexivity | apply Qsum_pos; assumption].
Qed.

(** X6: On a frame with non-negative votes and shares, a higher score never
    gets a lower [win_probability]; so a row whose score exceeds the score
    of the first row (the predicted winner) has the same [win_probability]
    as the first row: it lost its place to rounding only. *)
Theorem higher_score_not_lower_probability (sqrt : Q -> Q) (df : DataFrame) :
  (forall r, In r df -> nonneg_row r) ->
  forall a b sa sb,
    In a (predict_winner_ensemble sqrt df) ->
    In b (predict_winner_ensemble sqrt df) ->
    score a = Fin sa -> score b = Fin sb -> sa <= sb ->
    exists pa pb,
      win_probability a = Fin pa /\ win_probability b = Fin pb /\ pa <= pb /\
      (winner_prediction sqrt df = Returns a -> pa == pb).
Proof.
  intros Hrows a b sa sb Ha Hb Esa Esb Hle.
  assert (Hne : df <> []).
  { intros ->. exact Ha. }
  destruct (scores_total_positive sqrt Hrows Hne) as [total [Etotal Hpos]].
  pose proof (Permutation_in _ (predict_perm sqrt df) Ha) as Ha'.
  pose proof (Permutation_in _ (predict_perm sqrt df) Hb) as Hb'.
  apply scored_In in Ha', Hb'.
  destruct Ha' as [_ [_ [Hwa _]]]. destruct Hb' as [_ [_ [Hwb _]]].
  rewrite Etotal, Esa, normalise_Fin in Hwa by (apply Qpos_not_zero, Hpos).
  rewrite Etotal, Esb, normalise_Fin in Hwb by (apply Qpos_not_zero, Hpos).
  assert (Hmono : Qround2 (sa / total * 100) <= Qround2 (sb / total * 100)).
  { apply Qround2_monotone.
    assert (sa / total <= sb / total).
    { apply Qle_shift_div_l; [exact Hpos | ].
      unfold Qdiv. rewrite <- Qmult_assoc.
      setoid_replace (/ total * total) with 1 by (field; lra).
      lra. }
    lra. }
  do 2 eexists. split; [exact Hwa | ]. split; [exact Hwb | ].
  split; [exact Hmono | ].
  intros Hwin. apply Qle_antisym; [exact Hmono | ].
  unfold winner_prediction in Hwin.
  pose proof (sort_values_desc_sorted (scored (party_stats sqrt df))) as Hsorted.
  fold (predict_winner_ensemble sqrt df) in Hsorted.
  destruct (predict_winner_ensemble sqrt df) as [ | w rest];
    [discriminate | ].
  simpl in Hwin. injection Hwin as ->.
  destruct Hb as [<- | Hb].
  { assert (Heq : Qround2 (sa / total * 100) = Qround2 (sb / total * 100)).
    { assert (H' : Fin (Qround2 (sa / total * 100))
                   = Fin (Qround2 (sb / total * 100))) by congruence.
      exact (f_equal (fun x => match x with Fin q => q | _ => 0 end) H'). }
    rewrite Heq. apply Qle_refl. }
  apply StronglySorted_inv in Hsorted. destruct Hsorted as [_ Hall].
  rewrite Forall_forall in Hall. specialize (Hall b Hb).
  unfold may_follow in Hall. rewrite Hwa, Hwb in Hall. simpl in Hall.
  destruct Hall as [Hall | Hall]; [discriminate | ].
  apply Qle_bool_iff, Hall.
Qed.

Lemma higher_score_not_lower_probability_witness :
  exists a b pa pb,
    winner_prediction Qsqrt (derive_columns two_party_rows) = Returns b /\
    In a (predict_winner_ensemble Qsqrt (derive_columns two_party_rows)) /\
    score a = Fin 11100.00000 /\ score b = Fin 16500.00000 /\
    win_probability a = Fin pa /\ win_probability b = Fin pb /\ pa <= pb.
Proof.
  pose proof (@higher_score_not_lower_probability Qsqrt
                (derive_columns two_party_rows) two_party_rows_nonneg) as H.
  destruct (predict_winner_ensemble Qsqrt (derive_columns two_party_rows))
    as [ | b [ | a rest]] eqn:E; try (vm_compute in E; discriminate E).
  assert (Eb : score b = Fin 16500.00000)
    by (vm_compute in E; injection E as <- _; reflexivity).
  assert (Ea : score a = Fin 11100.00000)
    by (vm_compute in E; injection E as _ <- _; reflexivity).
  destruct (H a b _ _ (or_intror (or_introl eq_refl)) (or_introl eq_refl) Ea Eb)
    as [pa [pb [Hpa [Hpb [Hle _]]]]].
  { vm_compute. discriminate. }
  exists a, b, pa, pb.
  repeat split; try assumption.
  - unfold winner_prediction. rewrite E. reflexivity.
  - right. left. reflexivity.
Defined.

(* ------------------------------------------------------------------------- *)
(** ** More on the derivation step *)

Lemma Qle_div_pos (a b c : Q) : 0 < c -> a <= b -> a / c <= b / c.
Proof.
  intros Hc Hab. apply Qle_shift_div_l; [exact Hc | ].
  unfold Qdiv. rewrite <- Qmult_assoc.
  setoid_replace (/ c * c) with 1 by (field; lra).
  lra.
Qed.

(** A share of a positive total is a number between 0 and 100. *)
Lemma share_pct_bounds (v total : Z) :
  (0 <= v <= total)%Z -> (0 < total)%Z -> within 0 100 (share_pct v total).
Proof.
  intros Hv Ht. rewrite share_pct_nonzero by lia.
  eexists. split; [reflexivity | ].
  assert (Hq : 0 < inject_Z total) by (rewrite <- (Zlt_Qlt 0); exact Ht).
  assert (H0 : 0 <= inject_Z v) by (rewrite <- (Zle_Qle 0); lia).
  assert (H1 : inject_Z v <= inject_Z total) by (rewrite <- Zle_Qle; lia).
  pose proof (Qle_div_pos Hq H0) as Hlo.
  pose proof (Qle_div_pos Hq H1) as Hhi.
  setoid_replace (0 / inject_Z total) with 0 in Hlo by (field; lra).
  setoid_replace (inject_Z total / inject_Z total) with 1 in Hhi by (field; lra).
  apply Qround2_between; lra.
Qed.

(** X7: The two derived columns of a row: the total is the sum of the votes of
    the rows of the same constituency; when votes are non-negative and the
    total is not 0, the votes of the row are at most the total and the
    share is a number between 0 and 100. *)
Theorem derived_columns_sound (rows : list Row) (d : VoteRecord) :
  In d (derive_columns rows) ->
  total_constituency_votes d =
    int_sum (map votes
                 (rows_with constituency_name (constituency_name d) rows)) /\
  ((forall r, In r rows -> (0 <= votes r)%Z) ->
   total_constituency_votes d <> 0%Z ->
   (0 <= votes d <= total_constituency_votes d)%Z /\
   within 0 100 (vote_share_pct d)).
Proof.
  intros Hd.
  destruct (derive_columns_In _ _ Hd) as [Hbase [Htotal Hshare]].
  rewrite group_total_spec in Htotal.
  split; [exact Htotal | ].
  intros Hnonneg Hnz.
  assert (Hown : (votes d <= total_constituency_votes d)%Z).
  { rewrite Htotal. apply int_sum_ge_term.
    - intros y Hy. apply in_map_iff in Hy. destruct Hy as [r [<- Hr]].
      apply Hnonneg. apply filter_In in Hr. tauto.
    - apply in_map, own_group, Hbase. }
  pose proof (Hnonneg _ Hbase) as H0.
  split; [lia | ].
  rewrite Hshare. apply share_pct_bounds; lia.
Qed.

Lemma derived_columns_sound_witness :
  Forall (fun d => within 0 100 (vote_share_pct d))
         (derive_columns two_party_rows).
Proof.
  apply Forall_forall. intros d Hd.
  destruct (derived_columns_sound two_party_rows d Hd) as [_ H].
  apply H.
  - intros r [<- | [<- | []]]; simpl; lia.
  - vm_compute in Hd. destruct Hd as [<- | [<- | []]]; discriminate.
Defined.

(* ------------------------------------------------------------------------- *)
(** ** More on the synthesizer *)

Lemma Qtrunc_floor (q : Q) : 0 <= q -> Qtrunc q = Qfloor q.
Proof.
  destruct q as [n d]. unfold Qle, Qtrunc, Qfloor. simpl. intros H.
  apply Z.quot_div_nonneg; lia.
Qed.

Lemma Qtrunc_bounds (q : Q) :
  0 <= q ->
  (0 <= Qtrunc q)%Z /\ inject_Z (Qtrunc q) <= q /\ q < inject_Z (Qtrunc q) + 1.
Proof.
  intros H. rewrite (Qtrunc_floor H).
  pose proof (Qfloor_le q) as Hlo. pose proof (Qlt_floor q) as Hhi.
  rewrite inject_Z_succ in Hhi.
  split; [ | split; assumption].
  rewrite <- (Qfloor_Z 0). apply Qfloor_resp_le. exact H.
Qed.

Lemma strength_range_bounds (p : string) :
  0.05 <= fst (strength_range p) /\
  snd (strength_range p) <= 0.35 /\
  fst (strength_range p) < snd (strength_range p).
Proof.
  unfold strength_range.
  repeat match goal with
         | |- context [String.eqb ?a ?b] => destruct (String.eqb a b)
         end; simpl; repeat split; reflexivity || (intro H; discriminate H).
Qed.

Lemma distinctb_NoDup (l : list string) : distinctb l = true -> NoDup l.
Proof.
  induction l as [ | x l IH]; simpl; intros H; [constructor | ].
  apply andb_prop in H. destruct H as [Hx Hl].
  constructor; [ | apply IH, Hl].
  intros Hin. apply existsb_eqb_In in Hin. rewrite Hin in Hx. discriminate Hx.
Qed.

Lemma NoDup_map_eq (A B : Type) (f : A -> B) (l : list A) (x y : A) :
  NoDup (map f l) -> In x l -> In y l -> f x = f y -> x = y.
Proof.
  induction l as [ | a l IH]; simpl; intros Hnd Hx Hy E; [destruct Hx | ].
  inversion Hnd as [ | ? ? Hnotin Hnd']; subst.
  destruct Hx as [-> | Hx], Hy as [-> | Hy]; auto.
  - exfalso. apply Hnotin. rewrite E. apply in_map, Hy.
  - exfalso. apply Hnotin. rewrite <- E. apply in_map, Hx.
Qed.

(** The hundred constituency names are pairwise different. *)
Lemma constituency_names_NoDup :
  NoDup (map (fun c => make_constituency_name (fst c) (snd c))
             (list_prod regions const_ids)).
Proof. apply distinctb_NoDup. vm_compute. reflexivity. Qed.

Section SynthesizerFacts.
Variable rng : Type.
Variable np_seed : Z -> rng.
Variable np_randint : Z -> Z -> rng -> Z * rng.
Variable np_uniform : Q -> Q -> rng -> Q * rng.
Variable np_choice : list string -> list Q -> rng -> string * rng.

Lemma for_each_cons (A B : Type) (x : A) (xs : list A)
      (body : A -> Rand rng (list B)) (s : rng) :
  fst (for_each (x :: xs) body s) =
  fst (body x s) ++ fst (for_each xs body (snd (body x s))).
Proof.
  simpl. unfold bind, ret. destruct (body x s) as [here s1]. simpl.
  destruct (for_each xs body s1). reflexivity.
Qed.

(** A loop returns the rows of its iterations, one block per iteration, in
    order. *)
Lemma for_each_blocks (A B : Type) (xs : list A)
      (body : A -> Rand rng (list B)) (s : rng) :
  exists blocks : list (A * list B),
    map fst blocks = xs /\
    concat (map snd blocks) = fst (for_each xs body s) /\
    Forall (fun b => exists s', snd b = fst (body (fst b) s')) blocks.
Proof.
  revert s. induction xs as [ | x xs IH]; intros s.
  - exists []. repeat split; constructor.
  - destruct (IH (snd (body x s))) as [blocks [Hkeys [Hrows Hall]]].
    exists ((x, fst (body x s)) :: blocks).
    rewrite for_each_cons. simpl. rewrite Hkeys, Hrows.
    repeat split. constructor; [exists s; reflexivity | exact Hall].
Qed.

Lemma nested_blocks (A C B : Type) (xs : list A) (ys : list C)
      (f : A -> C -> Rand rng (list B)) (s : rng) :
  exists blocks : list ((A * C) * list B),
    map fst blocks = list_prod xs ys /\
    concat (map snd blocks) =
      fst (for_each xs (fun x => for_each ys (f x)) s) /\
    Forall (fun b => exists s', snd b = fst (f (fst (fst b)) (snd (fst b)) s'))
           blocks.
Proof.
  revert s. induction xs as [ | x xs IH]; intros s.
  - exists []. repeat split; constructor.
  - rewrite for_each_cons.
    destruct (for_each_blocks ys (f x) s) as [inner [Hk1 [Hr1 Hall1]]].
    destruct (IH (snd (for_each ys (f x) s))) as [outer [Hk2 [Hr2 Hall2]]].
    exists (map (fun b => ((x, fst b), snd b)) inner ++ outer).
    rewrite !map_app, !map_map, concat_app. simpl.
    split; [ | split].
    + rewrite Hk2. f_equal. rewrite <- Hk1, map_map. reflexivity.
    + rewrite Hr2. f_equal. exact Hr1.
    + apply Forall_app. split; [ | exact Hall2].
      apply Forall_map. simpl. exact Hall1.
Qed.
End SynthesizerFacts.

Section SynthesizedRows.
Variable rng : Type.
Variable np_seed : Z -> rng.
Variable np_randint : Z -> Z -> rng -> Z * rng.
Variable np_uniform : Q -> Q -> rng -> Q * rng.
Variable np_choice : list string -> list Q -> rng -> string * rng.

(** The row that one pass of the loop over parties appends. *)
Lemma party_row_value (reg : string) (id : Z) (name : string) (v : Z)
      (p : string) (s : rng) :
  let d1 := np_uniform 0.6 0.85 s in
  let d2 := np_uniform (fst (strength_range p)) (snd (strength_range p))
                       (snd d1) in
  let d3 := np_choice ["Complete"; "In Progress"; "Pending"]
                      [0.7; 0.25; 0.05] (snd d2) in
  let d4 := np_uniform 0.75 0.95 (snd d3) in
  let n := Qtrunc (inject_Z v * fst d1 * fst d2) in
  fst (party_row np_uniform np_choice reg id name v p s) =
  [ {| region := reg;
       constituency_id := id;
       constituency_name := name;
       total_voters := v;
       party := p;
       votes := n;
       counting_status := fst d3;
       counted_votes := Qtrunc (inject_Z n * fst d4) |} ].
Proof.
  unfold party_row, bind, ret. simpl.
  destruct (np_uniform 0.6 0.85 s) as [x1 s1]. simpl.
  destruct (np_uniform (fst (strength_range p)) (snd (strength_range p)) s1)
    as [x2 s2]. simpl.
  destruct (np_choice ["Complete"; "In Progress"; "Pending"]
                      [0.7; 0.25; 0.05] s2) as [x3 s3]. simpl.
  destruct (np_uniform 0.75 0.95 s3) as [x4 s4]. reflexivity.
Qed.

(** The rows of one constituency: one per party, in the order of
    [parties], all with the constituency's keys and voters. *)
Lemma party_rows_shape (reg : string) (id : Z) (name : string) (v : Z)
      (ps : list string) (s : rng) :
  let rows := fst (for_each ps (party_row np_uniform np_choice reg id name v) s) in
  map key_columns rows = map (fun p => (reg, id, name, p)) ps /\
  Forall (fun r => total_voters r = v) rows.
Proof.
  revert s. induction ps as [ | p ps IH]; intros s.
  - split; constructor.
  - cbv zeta. rewrite for_each_cons.
    pose proof (party_row_value reg id name v p s) as Hrow. cbv zeta in Hrow.
    rewrite Hrow.
    destruct (IH (snd (party_row np_uniform np_choice reg id name v p s)))
      as [Hkeys Hvoters].
    split.
    + simpl. f_equal. exact Hkeys.
    + constructor; [reflexivity | exact Hvoters].
Qed.

Lemma constituency_rows_shape (reg : string) (id : Z) (s : rng) :
  let rows := fst (constituency_rows np_randint np_uniform np_choice reg id s) in
  map key_columns rows = constituency_keys (reg, id) /\
  Forall (fun r => total_voters r = fst (np_randint 50000 200000 s)) rows.
Proof.
  unfold constituency_rows, bind.
  destruct (np_randint 50000 200000 s) as [v s1]. simpl fst at 3.
  apply party_rows_shape.
Qed.

(** The list the loops build, as one block of rows per constituency. *)
Lemma data_list_blocks (s : rng) :
  exists blocks : list ((string * Z) * list Row),
    map fst blocks = list_prod regions const_ids /\
    concat (map snd blocks) =
      fst (build_data_list np_randint np_uniform np_choice s) /\
    Forall (fun b =>
              exists s', snd b =
                fst (constituency_rows np_randint np_uniform np_choice
                                       (fst (fst b)) (snd (fst b)) s'))
           blocks.
Proof.
  unfold build_data_list.
  apply (nested_blocks regions const_ids
           (constituency_rows np_randint np_uniform np_choice) s).
Qed.

Lemma data_list_keys (s : rng) :
  map key_columns (fst (build_data_list np_randint np_uniform np_choice s)) =
  synthesized_keys.
Proof.
  destruct (data_list_blocks s) as [blocks [Hkeys [Hrows Hall]]].
  rewrite <- Hrows. unfold synthesized_keys. rewrite <- Hkeys.
  clear Hkeys Hrows.
  induction Hall as [ | b blocks [s' Hb] _ IH]; [reflexivity | ].
  destruct b as [[reg id] rows]. simpl in Hb. subst rows.
  cbn [map concat flat_map fst snd]. rewrite map_app, IH. f_equal.
  apply (proj1 (constituency_rows_shape reg id s')).
Qed.

Lemma generated_base (s : rng) :
  map base (fst (generate_election_data np_seed np_randint np_uniform
                                        np_choice s)) =
  fst (build_data_list np_randint np_uniform np_choice (np_seed 42)).
Proof.
  unfold generate_election_data.
  destruct (build_data_list np_randint np_uniform np_choice (np_seed 42))
    as [data_list s'].
  simpl. apply base_derive_columns.
Qed.
End SynthesizedRows.

Lemma generated_keys (rng : Type) (np_seed : Z -> rng)
      (np_randint : Z -> Z -> rng -> Z * rng)
      (np_uniform : Q -> Q -> rng -> Q * rng)
      (np_choice : list string -> list Q -> rng -> string * rng) (s : rng) :
  map (fun d : VoteRecord => key_columns d)
      (fst (generate_election_data np_seed np_randint np_uniform np_choice s))
  = synthesized_keys.
Proof.
  rewrite <- (map_map base key_columns), generated_base.
  apply data_list_keys.
Qed.

(** X8: Whatever is drawn, the synthesizer returns 500 rows whose key columns
    ([region], [constituency_id], [constituency_name], [party]) are the
    fixed product of the five regions, the numbers 1 to 20 and the five
    parties, in loop order. *)
Theorem synthesized_layout
        (rng : Type) (np_seed : Z -> rng)
        (np_randint : Z -> Z -> rng -> Z * rng)
        (np_uniform : Q -> Q -> rng -> Q * rng)
        (np_choice : list string -> list Q -> rng -> string * rng)
        (s : rng) :
  let df := fst (generate_election_data np_seed np_randint np_uniform
                                        np_choice s) in
  map (fun d : VoteRecord => key_columns d) df = synthesized_keys /\
  length df = 500%nat.
Proof.
  intros df.
  assert (Hkeys : map (fun d : VoteRecord => key_columns d) df
                  = synthesized_keys)
    by apply generated_keys.
  split; [exact Hkeys | ].
  rewrite <- (length_map (fun d : VoteRecord => key_columns d)), Hkeys.
  vm_compute. reflexivity.
Qed.

Lemma Qmult_ge_bounds (a b x y : Q) :
  0 <= a -> 0 <= b -> a <= x -> b <= y -> a * b <= x * y.
Proof.
  intros Ha Hb Hax Hby.
  apply Qle_trans with (x * b).
  - apply Qmult_le_compat_r; assumption.
  - rewrite (Qmult_comm x b), (Qmult_comm x y).
    apply Qmult_le_compat_r; [exact Hby | lra].
Qed.

Section PlausibleRows.
Variable rng : Type.
Variable np_seed : Z -> rng.
Variable np_randint : Z -> Z -> rng -> Z * rng.
Variable np_uniform : Q -> Q -> rng -> Q * rng.
Variable np_choice : list string -> list Q -> rng -> string * rng.
Hypothesis Hrandint : randint_in_range np_randint.
Hypothesis Huniform : uniform_in_range np_uniform.
Hypothesis Hchoice : choice_in_options np_choice.

Lemma party_row_plausible (reg : string) (id : Z) (name : string) (v : Z)
      (p : string) (s : rng) :
  (50000 <= v < 200000)%Z ->
  Forall plausible_row (fst (party_row np_uniform np_choice reg id name v p s)).
Proof.
  intros Hv.
  pose proof (party_row_value np_uniform np_choice reg id name v p s) as Hrow.
  cbv zeta in Hrow. rewrite Hrow. clear Hrow.
  set (d1 := np_uniform 0.6 0.85 s).
  set (d2 := np_uniform (fst (strength_range p)) (snd (strength_range p)) (snd d1)).
  set (d3 := np_choice ["Complete"; "In Progress"; "Pending"]
                       [0.7; 0.25; 0.05] (snd d2)).
  set (d4 := np_uniform 0.75 0.95 (snd d3)).
  destruct (strength_range_bounds p) as [Hlo [Hhi Hlt]].
  destruct (@Huniform 0.6 0.85 s) as [H1lo H1hi]; [reflexivity | ].
  destruct (@Huniform _ _ (snd d1) Hlt) as [H2lo H2hi].
  destruct (@Huniform 0.75 0.95 (snd d3)) as [H4lo H4hi]; [reflexivity | ].
  fold d1 in H1lo, H1hi. fold d2 in H2lo, H2hi. fold d4 in H4lo, H4hi.
  assert (HvQ : 50000 <= inject_Z v)
    by (change 50000 with (inject_Z 50000); rewrite <- Zle_Qle; lia).
  set (q := inject_Z v * fst d1 * fst d2).
  assert (Hq1 : 30000 <= inject_Z v * fst d1).
  { setoid_replace 30000 with (50000 * 0.6) by reflexivity.
    apply Qmult_ge_bounds; lra. }
  assert (Hq : 1500 <= q).
  { unfold q. setoid_replace 1500 with (30000 * 0.05) by reflexivity.
    apply Qmult_ge_bounds; lra. }
  assert (Hq2 : inject_Z v * fst d1 <= inject_Z v * 1).
  { rewrite !(Qmult_comm (inject_Z v)). apply Qmult_le_compat_r; lra. }
  assert (Hqv : q <= inject_Z v * (7 # 20)).
  { unfold q. apply Qmult_ge_bounds; lra. }
  destruct (@Qtrunc_bounds q) as [Hn0 [Hnle Hnlt]]; [lra | ].
  set (n := Qtrunc q) in *.
  assert (Hn : (1500 <= n)%Z).
  { unfold n. rewrite Qtrunc_floor by lra. rewrite <- (Qfloor_Z 1500).
    apply Qfloor_resp_le. exact Hq. }
  assert (Hnv : (n < v)%Z) by (rewrite Zlt_Qlt; lra).
  assert (HnQ : 0 <= inject_Z n) by (rewrite <- (Zle_Qle 0); lia).
  assert (Hc : inject_Z n * fst d4 <= inject_Z n * 1).
  { rewrite !(Qmult_comm (inject_Z n)). apply Qmult_le_compat_r; lra. }
  assert (Hc0 : 0 <= inject_Z n * fst d4).
  { apply Qmult_le_0_compat; lra. }
  destruct (Qtrunc_bounds Hc0) as [Hk0 [Hkle _]].
  assert (Hstatus : In (fst d3) ["Complete"; "In Progress"; "Pending"]).
  { unfold d3. apply Hchoice. discriminate. }
  constructor; [ | constructor].
  unfold plausible_row. cbn [total_voters votes counted_votes counting_status].
  repeat split; try lia; try exact Hstatus.
  rewrite Zle_Qle. lra.
Qed.

Lemma party_rows_plausible (reg : string) (id : Z) (name : string) (v : Z)
      (ps : list string) (s : rng) :
  (50000 <= v < 200000)%Z ->
  Forall plausible_row
         (fst (for_each ps (party_row np_uniform np_choice reg id name v) s)).
Proof.
  intros Hv. revert s. induction ps as [ | p ps IH]; intros s.
  - constructor.
  - rewrite for_each_cons. apply Forall_app. split; [ | apply IH].
    apply party_row_plausible, Hv.
Qed.

Lemma constituency_rows_plausible (reg : string) (id : Z) (s : rng) :
  Forall plausible_row
         (fst (constituency_rows np_randint np_uniform np_choice reg id s)).
Proof.
  unfold constituency_rows, bind.
  pose proof (@Hrandint 50000%Z 200000%Z s) as Hv.
  destruct (np_randint 50000 200000 s) as [v s1]. simpl in Hv.
  apply party_rows_plausible. apply Hv. reflexivity.
Qed.

Lemma data_list_plausible (s : rng) :
  Forall plausible_row
         (fst (build_data_list np_randint np_uniform np_choice s)).
Proof.
  destruct (data_list_blocks np_randint np_uniform np_choice s)
    as [blocks [_ [Hrows Hall]]].
  rewrite <- Hrows. clear Hrows.
  induction Hall as [ | b blocks [s' Hb] _ IH]; [constructor | ].
  cbn [map concat]. apply Forall_app. split; [ | exact IH].
  rewrite Hb. apply constituency_rows_plausible.
Qed.
End PlausibleRows.

Lemma key_columns_of_block (reg : string) (id : Z) (rows : list Row) (r : Row) :
  map key_columns rows = constituency_keys (reg, id) ->
  In r rows ->
  constituency_name r = make_constituency_name reg id.
Proof.
  intros Hkeys Hr. apply (in_map key_columns) in Hr. rewrite Hkeys in Hr.
  unfold constituency_keys in Hr. apply in_map_iff in Hr.
  destruct Hr as [p [E _]]. unfold key_columns in E. simpl in E.
  inversion E. reflexivity.
Qed.

(** X9: Whatever is drawn, two rows of the synthesized frame that carry the same
    [constituency_name] carry the same [total_voters] (so [first()] at line
    212 reads the constituency's voters) and the same
    [total_constituency_votes]. *)
Theorem voters_constant_per_constituency
        (rng : Type) (np_seed : Z -> rng)
        (np_randint : Z -> Z -> rng -> Z * rng)
        (np_uniform : Q -> Q -> rng -> Q * rng)
        (np_choice : list string -> list Q -> rng -> string * rng)
        (s : rng) (d1 d2 : VoteRecord) :
  let df := fst (generate_election_data np_seed np_randint np_uniform
                                        np_choice s) in
  In d1 df -> In d2 df ->
  constituency_name d1 = constituency_name d2 ->
  total_voters d1 = total_voters d2 /\
  total_constituency_votes d1 = total_constituency_votes d2.
Proof.
  intros df H1 H2 Hname.
  assert (Hdf : df = derive_columns
                       (fst (build_data_list np_randint np_uniform np_choice
                                             (np_seed 42%Z)))).
  { unfold df, generate_election_data.
    destruct (build_data_list np_randint np_uniform np_choice (np_seed 42%Z)).
    reflexivity. }
  rewrite Hdf in H1, H2.
  destruct (derive_columns_In _ _ H1) as [Hb1 [Ht1 _]].
  destruct (derive_columns_In _ _ H2) as [Hb2 [Ht2 _]].
  split.
  2:{ rewrite Ht1, Ht2, !group_total_spec, Hname. reflexivity. }
  destruct (data_list_blocks np_randint np_uniform np_choice (np_seed 42%Z))
    as [blocks [Hkeys [Hrows Hall]]].
  rewrite <- Hrows in Hb1, Hb2.
  apply in_concat in Hb1, Hb2.
  destruct Hb1 as [rows1 [Hin1 Hr1]]. destruct Hb2 as [rows2 [Hin2 Hr2]].
  apply in_map_iff in Hin1, Hin2.
  destruct Hin1 as [b1 [<- Hb1]]. destruct Hin2 as [b2 [<- Hb2]].
  rewrite Forall_forall in Hall.
  destruct (Hall b1 Hb1) as [s1 Hs1]. destruct (Hall b2 Hb2) as [s2 Hs2].
  destruct (constituency_rows_shape np_randint np_uniform np_choice
              (fst (fst b1)) (snd (fst b1)) s1) as [Hk1 Hv1].
  destruct (constituency_rows_shape np_randint np_uniform np_choice
              (fst (fst b2)) (snd (fst b2)) s2) as [Hk2 Hv2].
  rewrite <- Hs1 in Hk1, Hv1. rewrite <- Hs2 in Hk2, Hv2.
  pose proof (@key_columns_of_block _ _ _ _ Hk1 Hr1) as Hn1.
  pose proof (@key_columns_of_block _ _ _ _ Hk2 Hr2) as Hn2.
  assert (Hsame : fst b1 = fst b2).
  { apply (NoDup_map_eq (fun c => make_constituency_name (fst c) (snd c))
                        (list_prod regions const_ids)).
    - exact constituency_names_NoDup.
    - rewrite <- Hkeys. apply in_map, Hb1.
    - rewrite <- Hkeys. apply in_map, Hb2.
    - simpl. rewrite <- Hn1, <- Hn2. exact Hname. }
  assert (Hblock : b1 = b2).
  { apply (NoDup_map_eq fst blocks); try assumption.
    rewrite Hkeys.
    apply (NoDup_map_inv (fun c => make_constituency_name (fst c) (snd c))).
    exact constituency_names_NoDup. }
  subst b2.
  rewrite Forall_forall in Hv1.
  rewrite (Hv1 _ Hr1), (Hv1 _ Hr2). reflexivity.
Qed.

Lemma voters_constant_per_constituency_witness :
  let df := fst (generate_election_data (fun z : Z => z) lcg_randint
                                        lcg_uniform lcg_choice 1%Z) in
  Forall (fun d1 : VoteRecord =>
            Forall (fun d2 : VoteRecord =>
                      constituency_name d1 = constituency_name d2 ->
                      total_voters d1 = total_voters d2)
                   df)
         df.
Proof.
  intros df. apply Forall_forall. intros d1 H1.
  apply Forall_forall. intros d2 H2 Hname.
  apply (voters_constant_per_constituency
           (fun z : Z => z) lcg_randint lcg_uniform lcg_choice 1%Z d1 d2
           H1 H2 Hname).
Defined.

Lemma generated_frame (rng : Type) (np_seed : Z -> rng)
      (np_randint : Z -> Z -> rng -> Z * rng)
      (np_uniform : Q -> Q -> rng -> Q * rng)
      (np_choice : list string -> list Q -> rng -> string * rng) (s : rng) :
  fst (generate_election_data np_seed np_randint np_uniform np_choice s) =
  derive_columns
    (fst (build_data_list np_randint np_uniform np_choice (np_seed 42%Z))).
Proof.
  unfold generate_election_data.
  destruct (build_data_list np_randint np_uniform np_choice (np_seed 42%Z)).
  reflexivity.
Qed.

(** X10: When the draws stay in their documented ranges, every row of the
    synthesized frame has between 50000 and 200000 voters, at least 1500
    votes and fewer votes than voters, counted votes between 0 and its
    votes, and one of the three counting statuses. *)
Theorem synthesized_rows_plausible
        (rng : Type) (np_seed : Z -> rng)
        (np_randint : Z -> Z -> rng -> Z * rng)
        (np_uniform : Q -> Q -> rng -> Q * rng)
        (np_choice : list string -> list Q -> rng -> string * rng)
        (s : rng) :
  randint_in_range np_randint ->
  uniform_in_range np_uniform ->
  choice_in_options np_choice ->
  Forall (fun d : VoteRecord => plausible_row d)
         (fst (generate_election_data np_seed np_randint np_uniform
                                      np_choice s)).
Proof.
  intros Hrandint Huniform Hchoice.
  rewrite generated_frame.
  apply Forall_forall. intros d Hd.
  apply derive_columns_In in Hd. destruct Hd as [Hbase _].
  pose proof (data_list_plausible Hrandint Huniform Hchoice (np_seed 42%Z))
    as Hall.
  rewrite Forall_forall in Hall. apply Hall, Hbase.
Qed.

Lemma lcg_randint_in_range : randint_in_range lcg_randint.
Proof.
  intros lo hi s Hlt. unfold lcg_randint. cbn [fst].
  pose proof (Z.mod_pos_bound (lcg_next s) (hi - lo)). lia.
Qed.

Lemma lcg_uniform_in_range : uniform_in_range lcg_uniform.
Proof.
  intros lo hi s Hlt. unfold lcg_uniform. cbn [fst]. rewrite Qred_correct.
  pose proof (Z.mod_pos_bound (lcg_next s) 1000 eq_refl) as Hk.
  set (k := (lcg_next s mod 1000)%Z) in *.
  assert (H0 : 0 <= k # 1000) by (unfold Qle; simpl; lia).
  assert (H1 : (k # 1000) < 1) by (unfold Qlt; simpl; lia).
  assert (Hd : 0 < hi - lo) by lra.
  assert (Ha : 0 <= (hi - lo) * (k # 1000)).
  { apply Qmult_le_0_compat; lra. }
  assert (Hb : (hi - lo) * (k # 1000) < (hi - lo) * 1).
  { apply Qmult_lt_l; assumption. }
  split; lra.
Qed.

Lemma lcg_choice_in_options : choice_in_options lcg_choice.
Proof.
  intros options p s Hne. unfold lcg_choice. cbn [fst].
  apply nth_In.
  assert (Hlen : (0 < Z.of_nat (length options))%Z).
  { destruct options; [contradiction | simpl length; lia]. }
  pose proof (Z.mod_pos_bound (lcg_next s) _ Hlen). lia.
Qed.

Lemma synthesized_rows_plausible_witness :
  Forall (fun d : VoteRecord => plausible_row d)
         (fst (generate_election_data (fun z : Z => z) lcg_randint
                                      lcg_uniform lcg_choice 1%Z)).
Proof.
  apply synthesized_rows_plausible.
  - exact lcg_randint_in_range.
  - exact lcg_uniform_in_range.
  - exact lcg_choice_in_options.
Defined.

(** X11: When the draws stay in their documented ranges, the synthesized frame
    is never the kind of frame on which the dashboard misbehaves: it has
    rows, every constituency total is positive, every [vote_share_pct] is a
    number between 0 and 100 (never [nan]), and [winner_prediction] finds a
    first row. *)
Theorem synthesized_frame_scorable
        (rng : Type) (np_seed : Z -> rng)
        (np_randint : Z -> Z -> rng -> Z * rng)
        (np_uniform : Q -> Q -> rng -> Q * rng)
        (np_choice : list string -> list Q -> rng -> string * rng)
        (s : rng) (sqrt : Q -> Q) :
  randint_in_range np_randint ->
  uniform_in_range np_uniform ->
  choice_in_options np_choice ->
  let df := fst (generate_election_data np_seed np_randint np_uniform
                                        np_choice s) in
  df <> [] /\
  (forall d, In d df ->
     (0 < votes d <= total_constituency_votes d)%Z /\
     within 0 100 (vote_share_pct d) /\
     nonneg_row d) /\
  (exists w, winner_prediction sqrt df = Returns w).
Proof.
  intros Hrandint Huniform Hchoice df.
  pose proof (generated_keys np_seed np_randint np_uniform np_choice s)
    as Hkeys.
  pose proof (data_list_plausible Hrandint Huniform Hchoice (np_seed 42%Z))
    as Hall.
  rewrite Forall_forall in Hall.
  assert (Hne : df <> []).
  { fold df in Hkeys. intros E. rewrite E in Hkeys.
    vm_compute in Hkeys. discriminate Hkeys. }
  split; [exact Hne | ]. split.
  - intros d Hd. unfold df in Hd. rewrite generated_frame in Hd.
    destruct (derive_columns_In _ _ Hd) as [Hbase [Htotal Hshare]].
    rewrite group_total_spec in Htotal.
    destruct (Hall _ Hbase) as [_ [[Hv _] _]].
    assert (Hown : (votes d <= total_constituency_votes d)%Z).
    { rewrite Htotal. apply int_sum_ge_term.
      - intros y Hy. apply in_map_iff in Hy. destruct Hy as [r [<- Hr]].
        apply filter_In in Hr. destruct Hr as [Hr _].
        destruct (Hall _ Hr) as [_ [[Hvr _] _]]. lia.
      - apply in_map, own_group, Hbase. }
    assert (Hshare' : within 0 100 (vote_share_pct d)).
    { rewrite Hshare. apply share_pct_bounds; lia. }
    split; [lia | ]. split; [exact Hshare' | ].
    split; [lia | ].
    destruct Hshare' as [q [Eq [Hq _]]]. exists q. auto.
  - pose proof (predict_nil_iff sqrt df) as Hnil.
    unfold winner_prediction.
    destruct (predict_winner_ensemble sqrt df) as [ | w rest].
    + exfalso. apply Hne, Hnil. reflexivity.
    + exists w. reflexivity.
Qed.

Lemma synthesized_frame_scorable_witness :
  exists w,
    winner_prediction Qsqrt
      (fst (generate_election_data (fun z : Z => z) lcg_randint
                                   lcg_uniform lcg_choice 1%Z))
    = Returns w.
Proof.
  destruct (synthesized_frame_scorable
              (fun z : Z => z) 1%Z Qsqrt
              lcg_randint_in_range lcg_uniform_in_range lcg_choice_in_options)
    as [_ [_ H]].
  exact H.
Defined.

(* ------------------------------------------------------------------------- *)
(** ** Counting dashboard *)

Lemma status_count_cons (status : string) (r : VoteRecord) (df : DataFrame) :
  status_count status (r :: df) =
  ((if String.eqb (counting_status r) status then 1 else 0)
   + status_count status df)%Z.
Proof.
  unfold status_count. simpl.
  destruct (String.eqb (counting_status r) status); simpl length; lia.
Qed.

(** X12: The three metrics of the counting dashboard never count a row twice;
    they add up to the number of rows exactly when every row has one of the
    three statuses "Complete", "In Progress", "Pending". *)
Theorem counting_metrics_partition (df : DataFrame) :
  let complete := status_count "Complete" df in
  let in_progress := status_count "In Progress" df in
  let pending := status_count "Pending" df in
  (complete + in_progress + pending <= Z.of_nat (length df))%Z /\
  ((complete + in_progress + pending = Z.of_nat (length df))%Z <->
   forall r, In r df ->
     In (counting_status r) ["Complete"; "In Progress"; "Pending"]).
Proof.
  cbv zeta.
  induction df as [ | r df [IHle IHiff]].
  - unfold status_count. simpl.
    split; [lia | ]. split; [intros _ r [] | reflexivity].
  - rewrite !status_count_cons.
    assert (Hlen : Z.of_nat (length (r :: df)) = (1 + Z.of_nat (length df))%Z)
      by (simpl length; lia).
    rewrite Hlen.
    destruct (String.eqb (counting_status r) "Complete") eqn:E1;
      destruct (String.eqb (counting_status r) "In Progress") eqn:E2;
      destruct (String.eqb (counting_status r) "Pending") eqn:E3;
      try (apply String.eqb_eq in E1); try (apply String.eqb_eq in E2);
      try (apply String.eqb_eq in E3);
      try (rewrite E1 in E2; discriminate E2);
      try (rewrite E1 in E3; discriminate E3);
      try (rewrite E2 in E3; discriminate E3).
    + split; [lia | ]. split.
      * intros H r' [<- | Hr']; [rewrite E1; simpl; auto | ].
        apply IHiff; [lia | exact Hr'].
      * intros H. assert (Hrest : forall r', In r' df ->
          In (counting_status r') ["Complete"; "In Progress"; "Pending"])
          by (intros; apply H; right; assumption).
        apply IHiff in Hrest. lia.
    + split; [lia | ]. split.
      * intros H r' [<- | Hr']; [rewrite E2; simpl; auto | ].
        apply IHiff; [lia | exact Hr'].
      * intros H. assert (Hrest : forall r', In r' df ->
          In (counting_status r') ["Complete"; "In Progress"; "Pending"])
          by (intros; apply H; right; assumption).
        apply IHiff in Hrest. lia.
    + split; [lia | ]. split.
      * intros H r' [<- | Hr']; [rewrite E3; simpl; auto | ].
        apply IHiff; [lia | exact Hr'].
      * intros H. assert (Hrest : forall r', In r' df ->
          In (counting_status r') ["Complete"; "In Progress"; "Pending"])
          by (intros; apply H; right; assumption).
        apply IHiff in Hrest. lia.
    + split; [lia | ]. split; [intros H; lia | ].
      intros H. exfalso.
      destruct (H r (or_introl eq_refl)) as [E | [E | [E | []]]];
        symmetry in E; apply String.eqb_eq in E; congruence.
Qed.
(* ------------------------------------------------------------------------- *)
(** ** Voting dashboard *)

Lemma int_sum_filter_le (A : Type) (f : A -> Z) (keep : A -> bool) (l : list A) :
  (forall a, In a l -> (0 <= f a)%Z) ->
  (int_sum (map f (filter keep l)) <= int_sum (map f l))%Z.
Proof.
  induction l as [ | a l IH]; intros H; [reflexivity | ].
  assert (Ha : (0 <= f a)%Z) by (apply H; left; reflexivity).
  assert (IH' : (int_sum (map f (filter keep l)) <= int_sum (map f l))%Z)
    by (apply IH; intros; apply H; right; assumption).
  simpl. destruct (keep a); simpl; rewrite !int_sum_cons; lia.
Qed.

(** X13: The filters of the voting dashboard keep exactly the rows of the
    selected region and party (['All'] selects every one), both ['All']
    leave the frame as it is, and with non-negative votes the filtered
    frame never holds more votes than the frame. *)
Theorem apply_filters_spec (selected_region selected_party : string)
        (df : DataFrame) :
  (forall r,
      In r (apply_filters selected_region selected_party df) <->
      In r df /\
      (selected_region = "All" \/ region r = selected_region) /\
      (selected_party = "All" \/ party r = selected_party)) /\
  apply_filters "All" "All" df = df /\
  ((forall r, In r df -> (0 <= votes r)%Z) ->
   (total_votes_metric (apply_filters selected_region selected_party df)
    <= total_votes_metric df)%Z).
Proof.
  unfold apply_filters. split; [ | split; [reflexivity | ]].
  - intros r.
    destruct (String.eqb_spec selected_region "All") as [Er | Nr];
      destruct (String.eqb_spec selected_party "All") as [Ep | Np];
      rewrite ?filter_In, ?String.eqb_eq; intuition congruence.
  - intros Hnonneg. unfold total_votes_metric.
    destruct (String.eqb selected_region "All");
      destruct (String.eqb selected_party "All"); try lia.
    + apply int_sum_filter_le, Hnonneg.
    + apply int_sum_filter_le, Hnonneg.
    + etransitivity; [apply int_sum_filter_le | apply int_sum_filter_le, Hnonneg].
      intros r Hr. apply filter_In in Hr. apply Hnonneg. tauto.
Qed.

Lemma apply_filters_spec_witness :
  (total_votes_metric (apply_filters "North" "Party A" (derive_columns close_rows))
   <= total_votes_metric (derive_columns close_rows))%Z.
Proof.
  destruct (apply_filters_spec "North" "Party A" (derive_columns close_rows))
    as [_ [_ H]].
  apply H. intros r Hr. vm_compute in Hr.
  destruct Hr as [<- | [<- | [<- | [<- | [<- | []]]]]]; simpl; lia.
Defined.

Lemma insert_by_value_perm (x : string * Z) (l : list (string * Z)) :
  Permutation (insert_by_value x l) (x :: l).
Proof.
  induction l as [ | y l IH]; simpl; [reflexivity | ].
  destruct (snd y <=? snd x)%Z; [reflexivity | ].
  rewrite IH. apply perm_swap.
Qed.

Lemma sort_by_value_desc_perm (s : list (string * Z)) :
  Permutation (sort_by_value_desc s) s.
Proof.
  induction s as [ | x s IH]; simpl; [reflexivity | ].
  rewrite insert_by_value_perm, IH. reflexivity.
Qed.

Lemma insert_by_value_sorted (x : string * Z) (l : list (string * Z)) :
  StronglySorted (fun a b => (snd b <= snd a)%Z) l ->
  StronglySorted (fun a b => (snd b <= snd a)%Z) (insert_by_value x l).
Proof.
  intros Hs. induction Hs as [ | y l Hs IH Hy]; simpl.
  - repeat constructor.
  - destruct (Z.leb_spec (snd y) (snd x)) as [Hle | Hgt].
    + constructor; [constructor; assumption | ].
      constructor; [exact Hle | ].
      rewrite Forall_forall in *. intros z Hz. specialize (Hy z Hz). lia.
    + constructor; [exact IH | ].
      rewrite Forall_forall in *. intros z Hz.
      apply (Permutation_in _ (insert_by_value_perm x l)) in Hz.
      destruct Hz as [<- | Hz]; [lia | apply Hy, Hz].
Qed.

Lemma sort_by_value_desc_sorted (s : list (string * Z)) :
  StronglySorted (fun a b => (snd b <= snd a)%Z) (sort_by_value_desc s).
Proof.
  induction s as [ | x s IH]; simpl; [constructor | ].
  apply insert_by_value_sorted, IH.
Qed.

Lemma StronglySorted_firstn (A : Type) (R : A -> A -> Prop) (n : nat)
      (l : list A) :
  StronglySorted R l ->
  StronglySorted R (firstn n l) /\
  forall x y, In x (firstn n l) -> In y (skipn n l) -> R x y.
Proof.
  intros Hs. revert n. induction Hs as [ | a l Hs IH Ha]; intros n.
  - rewrite firstn_nil, skipn_nil. split; [constructor | intros x y []].
  - destruct n as [ | n]; simpl.
    + split; [constructor | intros x y []].
    + destruct (IH n) as [IH1 IH2]. rewrite Forall_forall in Ha. split.
      * constructor; [exact IH1 | ]. apply Forall_forall. intros x Hx.
        apply Ha. rewrite <- (firstn_skipn n l). apply in_or_app. auto.
      * intros x y [<- | Hx] Hy; [ | apply IH2; assumption].
        apply Ha. rewrite <- (firstn_skipn n l). apply in_or_app. auto.
Qed.

(** [nlargest(n)] returns [n] entries of the series (all of them when the
    series is shorter), by decreasing value, and no entry left out has a
    greater value than an entry returned. *)
Lemma nlargest_spec (n : nat) (s : list (string * Z)) :
  length (nlargest n s) = Nat.min n (length s) /\
  StronglySorted (fun a b => (snd b <= snd a)%Z) (nlargest n s) /\
  exists rest,
    Permutation s (nlargest n s ++ rest) /\
    forall x y, In x (nlargest n s) -> In y rest -> (snd y <= snd x)%Z.
Proof.
  unfold nlargest.
  destruct (StronglySorted_firstn n (sort_by_value_desc_sorted s)) as [H1 H2].
  split; [ | split; [exact H1 | ]].
  - rewrite length_firstn, (Permutation_length (sort_by_value_desc_perm s)).
    reflexivity.
  - exists (skipn n (sort_by_value_desc s)). split; [ | exact H2].
    rewrite firstn_skipn. apply Permutation_sym, sort_by_value_desc_perm.
Qed.

(** X14: "Top Constituencies" of the voting dashboard: at most ten bars, each
    the vote total of a constituency of the filtered frame, by decreasing
    total; every constituency of the filtered frame that is not shown has at
    most the votes of every constituency shown. *)
Theorem top_constituencies_spec (selected_region selected_party : string)
        (df : DataFrame) :
  let filtered := apply_filters selected_region selected_party df in
  let totals := votes_by (fun r : VoteRecord => constituency_name r) filtered in
  let shown := top_constituencies selected_region selected_party df in
  length shown = Nat.min 10 (length totals) /\
  StronglySorted (fun a b => (snd b <= snd a)%Z) shown /\
  (forall c t, In (c, t) shown ->
     In c (map (fun r : VoteRecord => constituency_name r) filtered) /\
     t = int_sum (map (fun r : VoteRecord => votes r)
                      (rows_with (fun r : VoteRecord => constituency_name r)
                                 c filtered))) /\
  (forall x y, In x totals -> ~ In x shown -> In y shown ->
     (snd x <= snd y)%Z).
Proof.
  intros filtered totals shown.
  destruct (nlargest_spec 10 totals) as [Hlen [Hsorted [rest [Hperm Hrest]]]].
  fold filtered totals in Hlen, Hsorted, Hperm, Hrest.
  change (nlargest 10 totals) with shown in *.
  split; [exact Hlen | ]. split; [exact Hsorted | ]. split.
  - intros c t Hin.
    apply (votes_by_In (fun r : VoteRecord => constituency_name r) filtered).
    apply (Permutation_in _ (Permutation_sym Hperm)).
    apply in_or_app. left. exact Hin.
  - intros x y Hx Hnot Hy.
    apply (Permutation_in _ Hperm) in Hx. apply in_app_or in Hx.
    destruct Hx as [Hx | Hx]; [contradiction | ].
    apply (Hrest y x Hy Hx).
Qed.

(* ------------------------------------------------------------------------- *)
(** ** Module 2 *)

Lemma int_sum_map_add (A : Type) (g h : A -> Z) (l : list A) :
  int_sum (map (fun a => (g a + h a)%Z) l) =
  (int_sum (map g l) + int_sum (map h l))%Z.
Proof.
  induction l as [ | a l IH]; [reflexivity | ].
  simpl map. rewrite !int_sum_cons, IH. lia.
Qed.

Lemma int_sum_indicator (k : string) (c : Z) (ks : list string) :
  NoDup ks -> In k ks ->
  int_sum (map (fun k' => if String.eqb k k' then c else 0%Z) ks) = c.
Proof.
  induction ks as [ | x ks IH]; intros Hnd Hin; [destruct Hin | ].
  inversion Hnd as [ | ? ? Hnotin Hnd']; subst.
  simpl map. rewrite int_sum_cons.
  destruct (String.eqb_spec k x) as [-> | Hne].
  - assert (Hzero : int_sum (map (fun k' => if String.eqb x k' then c else 0%Z) ks)
                    = 0%Z).
    { clear IH Hnd Hnd' Hin. induction ks as [ | y ks IH]; [reflexivity | ].
      simpl map. rewrite int_sum_cons.
      destruct (String.eqb_spec x y) as [-> | _].
      - exfalso. apply Hnotin. left. reflexivity.
      - rewrite IH; [lia | ]. intros H. apply Hnotin. right. exact H. }
    lia.
  - destruct Hin as [-> | Hin]; [contradiction | ].
    rewrite (IH Hnd' Hin). lia.
Qed.

(** Summing group by group over a list of distinct keys that covers the
    keys of the frame gives the sum over the frame. *)
Lemma sum_over_keys (A : Type) (key : A -> string) (f : A -> Z)
      (ks : list string) (l : list A) :
  NoDup ks ->
  (forall r, In r l -> In (key r) ks) ->
  int_sum (map (fun k => int_sum (map f (rows_with key k l))) ks) =
  int_sum (map f l).
Proof.
  intros Hnd. induction l as [ | r l IH]; intros Hcover.
  - clear Hnd Hcover. induction ks as [ | k ks IHk]; [reflexivity | ].
    simpl map. rewrite int_sum_cons. simpl map in IHk. rewrite IHk.
    reflexivity.
  - assert (Hstep : forall k,
        int_sum (map f (rows_with key k (r :: l))) =
        ((if String.eqb (key r) k then f r else 0) +
         int_sum (map f (rows_with key k l)))%Z).
    { intros k. unfold rows_with. simpl.
      destruct (String.eqb (key r) k); simpl; rewrite ?int_sum_cons; lia. }
    rewrite (map_ext _ _ Hstep), int_sum_map_add.
    rewrite (@int_sum_indicator (key r) (f r) ks Hnd
                                (Hcover r (or_introl eq_refl))).
    rewrite IH by (intros; apply Hcover; right; assumption).
    simpl map. rewrite int_sum_cons. reflexivity.
Qed.

Lemma pivot_cell_rows (reg p : string) (df : DataFrame) :
  pivot_cell reg p df =
  int_sum (map (fun r : VoteRecord => votes r)
               (rows_with (fun r : VoteRecord => party r) p
                          (rows_with (fun r : VoteRecord => region r) reg df))).
Proof.
  unfold pivot_cell, rows_with.
  assert (E : filter (fun r : VoteRecord =>
                        String.eqb (region r) reg && String.eqb (party r) p) df
              = filter (fun r : VoteRecord => String.eqb (party r) p)
                       (filter (fun r : VoteRecord => String.eqb (region r) reg)
                               df)).
  { induction df as [ | r df IH]; [reflexivity | ]. simpl.
    destruct (String.eqb (region r) reg); simpl;
      [destruct (String.eqb (party r) p) | ]; rewrite IH; reflexivity. }
  rewrite E.
  destruct (filter (fun r : VoteRecord => String.eqb (party r) p)
                   (filter (fun r : VoteRecord => String.eqb (region r) reg) df));
    reflexivity.
Qed.

Lemma pivot_row_sum (reg : string) (df : DataFrame) :
  int_sum (map snd (map (fun p => (p, pivot_cell reg p df))
                        (map fst (groupby (fun r : VoteRecord => party r) df))))
  = int_sum (map (fun r : VoteRecord => votes r)
                 (rows_with (fun r : VoteRecord => region r) reg df)).
Proof.
  rewrite map_map. simpl.
  rewrite (map_ext _ _ (fun p => pivot_cell_rows reg p df)).
  apply (sum_over_keys (fun r : VoteRecord => party r)
                       (fun r : VoteRecord => votes r)).
  - apply groupby_keys_NoDup.
  - intros r Hr. apply groupby_keys_In.
    apply (in_map (fun r : VoteRecord => party r)).
    apply filter_In in Hr. tauto.
Qed.

Lemma pivot_table_rows (df : DataFrame) :
  map fst (pivot_table df)
    = map fst (votes_by (fun r : VoteRecord => region r) df) /\
  (forall reg cells, In (reg, cells) (pivot_table df) ->
     In (reg, int_sum (map snd cells))
        (votes_by (fun r : VoteRecord => region r) df)).
Proof.
  split.
  - unfold pivot_table. rewrite map_map, votes_by_keys. simpl. apply map_id.
  - intros reg cells Hin. unfold pivot_table in Hin.
    apply in_map_iff in Hin. destruct Hin as [reg' [E Hreg]].
    inversion E; subst. rewrite pivot_row_sum.
    apply votes_by_In. split; [ | reflexivity].
    apply groupby_keys_In, Hreg.
Qed.


Lemma rows_with_filter_regions (selected : list string) (reg : string)
      (df : DataFrame) :
  In reg selected ->
  rows_with (fun r : VoteRecord => region r) reg (filter_regions selected df) =
  rows_with (fun r : VoteRecord => region r) reg df.
Proof.
  intros Hsel. unfold rows_with, filter_regions.
  induction df as [ | r df IH]; [reflexivity | ]. simpl.
  destruct (String.eqb_spec (region r) reg) as [E | N].
  - assert (Hin : existsb (String.eqb (region r)) selected = true)
      by (apply existsb_eqb_In; rewrite E; exact Hsel).
    rewrite Hin. simpl.
    destruct (String.eqb_spec (region r) reg); [ | contradiction].
    rewrite IH. reflexivity.
  - destruct (existsb (String.eqb (region r)) selected); simpl;
      [destruct (String.eqb_spec (region r) reg); [contradiction | ] | ];
      exact IH.
Qed.

(** X16: Module 2 shows nothing when no region is selected.  Otherwise its bars
    are the selected regions that occur in the frame, each with all the
    votes the region has in the frame, and its cross table has one row per
    bar whose cells add up to the bar. *)
Theorem module2_tables_spec (selected : list string) (df : DataFrame) :
  (selected = [] -> module2_tables selected df = None) /\
  (selected <> [] ->
   exists bars table,
     module2_tables selected df = Some (bars, table) /\
     map fst table = map fst bars /\
     (forall reg t, In (reg, t) bars <->
        In reg selected /\
        In reg (map (fun r : VoteRecord => region r) df) /\
        t = int_sum (map (fun r : VoteRecord => votes r)
                         (rows_with (fun r : VoteRecord => region r) reg df))) /\
     (forall reg cells, In (reg, cells) table ->
        In (reg, int_sum (map snd cells)) bars)).
Proof.
  split; [intros ->; reflexivity | ].
  intros Hne. unfold module2_tables.
  destruct selected as [ | s0 rest]; [contradiction | ].
  set (selected := s0 :: rest) in *.
  destruct (pivot_table_rows (filter_regions selected df)) as [Hkeys Hrows].
  do 2 eexists. split; [reflexivity | ].
  split; [exact Hkeys | ]. split; [ | exact Hrows].
  intros reg t. rewrite votes_by_In. split.
  - intros [Hreg ->]. apply in_map_iff in Hreg.
    destruct Hreg as [r [<- Hr]]. apply filter_In in Hr.
    destruct Hr as [Hr Hsel]. apply existsb_eqb_In in Hsel.
    split; [exact Hsel | ].
    split; [apply (in_map (fun r : VoteRecord => region r)), Hr | ].
    rewrite (@rows_with_filter_regions _ _ df Hsel). reflexivity.
  - intros [Hsel [Hreg ->]]. split.
    + apply in_map_iff in Hreg. destruct Hreg as [r [<- Hr]].
      apply (in_map (fun r : VoteRecord => region r)).
      apply filter_In. split; [exact Hr | ].
      apply existsb_eqb_In, Hsel.
    + rewrite (@rows_with_filter_regions _ _ df Hsel). reflexivity.
Qed.

Lemma module2_tables_spec_witness :
  exists bars table,
    module2_tables ["North"] (derive_columns close_rows) = Some (bars, table) /\
    bars = [("North", 60000%Z)] /\
    Forall (fun row => In (fst row, int_sum (map snd (snd row))) bars) table.
Proof.
  destruct (module2_tables_spec ["North"] (derive_columns close_rows))
    as [_ H].
  destruct H as [bars [table [E [_ [_ Hrows]]]]]; [discriminate | ].
  exists bars, table. split; [exact E | ].
  split; [vm_compute in E; injection E as <- _; reflexivity | ].
  apply Forall_forall. intros [reg cells] Hin. apply Hrows, Hin.
Defined.
(* ------------------------------------------------------------------------- *)
(** ** Module 1 *)

Lemma fold_min_spec (rest : list Z) (z : Z) :
  In (fold_left Z.min rest z) (z :: rest) /\
  forall y, In y (z :: rest) -> (fold_left Z.min rest z <= y)%Z.
Proof.
  revert z. induction rest as [ | x rest IH]; intros z; simpl.
  - split; [auto | ]. intros y [<- | []]. lia.
  - destruct (IH (Z.min z x)) as [Hin Hle]. split.
    + destruct Hin as [E | Hin]; [ | right; right; exact Hin].
      rewrite <- E.
      destruct (Z.min_spec z x) as [[_ ->] | [_ ->]];
        [left | right; left]; reflexivity.
    + pose proof (Hle _ (or_introl eq_refl)) as Hm.
      intros y [<- | [<- | Hy]]; [lia | lia | ]. apply Hle. right. exact Hy.
Qed.

Lemma fold_max_spec (rest : list Z) (z : Z) :
  In (fold_left Z.max rest z) (z :: rest) /\
  forall y, In y (z :: rest) -> (y <= fold_left Z.max rest z)%Z.
Proof.
  revert z. induction rest as [ | x rest IH]; intros z; simpl.
  - split; [auto | ]. intros y [<- | []]. lia.
  - destruct (IH (Z.max z x)) as [Hin Hle]. split.
    + destruct Hin as [E | Hin]; [ | right; right; exact Hin].
      rewrite <- E.
      destruct (Z.max_spec z x) as [[_ ->] | [_ ->]];
        [right; left | left]; reflexivity.
    + pose proof (Hle _ (or_introl eq_refl)) as Hm.
      intros y [<- | [<- | Hy]]; [lia | lia | ]. apply Hle. right. exact Hy.
Qed.

Lemma int_min_max_spec (zs : list Z) :
  zs <> [] ->
  In (int_min zs) zs /\ In (int_max zs) zs /\
  forall y, In y zs -> (int_min zs <= y <= int_max zs)%Z.
Proof.
  intros Hne. destruct zs as [ | z rest]; [contradiction | ].
  unfold int_min, int_max.
  destruct (fold_min_spec rest z) as [H1 H2].
  destruct (fold_max_spec rest z) as [H3 H4].
  split; [exact H1 | ]. split; [exact H3 | ].
  intros y Hy. split; [apply H2 | apply H4]; exact Hy.
Qed.

Lemma int_sum_between (zs : list Z) (lo hi : Z) :
  (forall y, In y zs -> (lo <= y <= hi)%Z) ->
  (Z.of_nat (length zs) * lo <= int_sum zs <= Z.of_nat (length zs) * hi)%Z.
Proof.
  induction zs as [ | z zs IH]; intros H.
  - rewrite int_sum_nil. simpl. lia.
  - rewrite int_sum_cons. simpl length. rewrite Nat2Z.inj_succ.
    pose proof (H z (or_introl eq_refl)).
    assert (Z.of_nat (length zs) * lo <= int_sum zs
            <= Z.of_nat (length zs) * hi)%Z
      by (apply IH; intros; apply H; right; assumption).
    lia.
Qed.

(** The mean of a group lies between its least and its greatest value. *)
Lemma int_mean_between (zs : list Z) :
  zs <> [] ->
  exists m, int_mean zs = Fin m /\
            inject_Z (int_min zs) <= m /\ m <= inject_Z (int_max zs).
Proof.
  intros Hne.
  destruct (int_min_max_spec Hne) as [_ [_ Hbounds]].
  pose proof (int_sum_between zs Hbounds) as [Hlo Hhi].
  assert (Hn : (0 < Z.of_nat (length zs))%Z)
    by (destruct zs; [contradiction | simpl length; lia]).
  assert (HnQ : 0 < inject_Z (Z.of_nat (length zs)))
    by (rewrite <- (Zlt_Qlt 0); exact Hn).
  unfold int_mean, of_int, fdiv.
  rewrite (Qpos_not_zero HnQ).
  eexists. split; [reflexivity | ].
  rewrite Zle_Qle, inject_Z_mult in Hlo, Hhi.
  split.
  - apply Qle_shift_div_l; [exact HnQ | ]. lra.
  - apply Qle_shift_div_r; [exact HnQ | ]. lra.
Qed.

Lemma insert_asc_perm (z : Z) (l : list Z) :
  Permutation (insert_asc z l) (z :: l).
Proof.
  induction l as [ | y l IH]; simpl; [reflexivity | ].
  destruct (z <=? y)%Z; [reflexivity | ].
  rewrite IH. apply perm_swap.
Qed.

Lemma sort_asc_perm (zs : list Z) : Permutation (sort_asc zs) zs.
Proof.
  induction zs as [ | z zs IH]; simpl; [reflexivity | ].
  rewrite insert_asc_perm, IH. reflexivity.
Qed.

Lemma nth_sort_asc_In (zs : list Z) (i : nat) :
  (i < length zs)%nat -> In (nth i (sort_asc zs) 0%Z) zs.
Proof.
  intros Hi. apply (Permutation_in _ (sort_asc_perm zs)).
  apply nth_In. rewrite (Permutation_length (sort_asc_perm zs)). exact Hi.
Qed.

(** The median of a group lies between its least and its greatest value. *)
Lemma int_median_between (zs : list Z) :
  zs <> [] ->
  exists m, int_median zs = Fin m /\
            inject_Z (int_min zs) <= m /\ m <= inject_Z (int_max zs).
Proof.
  intros Hne.
  destruct (int_min_max_spec Hne) as [_ [_ Hbounds]].
  assert (Hn : (0 < length zs)%nat)
    by (destruct zs; [contradiction | simpl; lia]).
  unfold int_median.
  destruct (Nat.eqb_spec (length zs) 0) as [E | _]; [lia | ].
  destruct (Nat.odd (length zs)) eqn:Hodd.
  - assert (Hi : (length zs / 2 < length zs)%nat)
      by (apply Nat.div_lt; lia).
    destruct (Hbounds _ (nth_sort_asc_In zs Hi)) as [Hlo Hhi].
    eexists. split; [reflexivity | ].
    rewrite <- !Zle_Qle. split; assumption.
  - assert (Heven : (2 <= length zs)%nat).
    { destruct (length zs) as [ | [ | n]]; [lia | discriminate Hodd | lia]. }
    assert (Hi : (length zs / 2 < length zs)%nat)
      by (apply Nat.div_lt; lia).
    assert (Hj : (length zs / 2 - 1 < length zs)%nat) by lia.
    destruct (Hbounds _ (nth_sort_asc_In zs Hi)) as [Hlo1 Hhi1].
    destruct (Hbounds _ (nth_sort_asc_In zs Hj)) as [Hlo2 Hhi2].
    rewrite Zle_Qle in Hlo1, Hhi1, Hlo2, Hhi2.
    eexists. split; [reflexivity | ].
    split.
    + apply Qle_shift_div_l; [reflexivity | lra].
    + apply Qle_shift_div_r; [reflexivity | lra].
Qed.

(** X17: The summary table of module 1: one row per party of the frame; the
    total is the sum of the party's votes; every vote count of the party
    lies between the row's minimum and maximum, and so do its mean and its
    median. *)
Theorem module1_stats_bounds (sqrt : Q -> Q) (df : DataFrame) (st : VoteStats) :
  In st (module1_stats sqrt df) ->
  In (vs_party st) (map (fun r : VoteRecord => party r) df) /\
  vs_total st = party_total_votes (vs_party st) df /\
  (forall r, In r (party_rows_of (vs_party st) df) ->
     (vs_min st <= votes r <= vs_max st)%Z) /\
  (exists m, vs_mean st = Fin m /\
             inject_Z (vs_min st) <= m /\ m <= inject_Z (vs_max st)) /\
  (exists m, vs_median st = Fin m /\
             inject_Z (vs_min st) <= m /\ m <= inject_Z (vs_max st)).
Proof.
  intros Hst. unfold module1_stats in Hst. apply in_map_iff in Hst.
  destruct Hst as [[k rows] [<- Hg]]. apply groupby_In in Hg.
  destruct Hg as [Hk ->]. simpl.
  pose proof (rows_with_nonempty (fun r : VoteRecord => party r) _ _ Hk) as Hne.
  fold (party_rows_of k df) in *.
  set (vs := map (fun r : VoteRecord => votes r) (party_rows_of k df)).
  assert (Hvs : vs <> []).
  { unfold vs. destruct (party_rows_of k df); [contradiction | discriminate]. }
  split; [exact Hk | ]. split; [reflexivity | ].
  split; [ | split].
  - intros r Hr. destruct (int_min_max_spec Hvs) as [_ [_ Hb]].
    apply Hb. unfold vs. apply (in_map (fun r : VoteRecord => votes r)), Hr.
  - apply int_mean_between, Hvs.
  - apply int_median_between, Hvs.
Qed.

Lemma module1_stats_bounds_witness :
  Forall (fun st =>
            exists m, vs_median st = Fin m /\
                      inject_Z (vs_min st) <= m /\ m <= inject_Z (vs_max st))
         (module1_stats Qsqrt (derive_columns close_rows)).
Proof.
  apply Forall_forall. intros st Hst.
  destruct (module1_stats_bounds Qsqrt (derive_columns close_rows) st Hst)
    as [_ [_ [_ [_ H]]]].
  exact H.
Defined.

Lemma votes_by_sum (key : VoteRecord -> string) (df : DataFrame) :
  int_sum (map snd (votes_by key df)) = total_votes_metric df.
Proof.
  unfold votes_by, total_votes_metric. rewrite map_map. simpl.
  apply (groupby_sum_conserved key (fun r : VoteRecord => votes r)).
Qed.

Lemma party_share_percentages_eq (df : DataFrame) :
  map snd (party_share df) =
  map (fun t => share_pct t (total_votes_metric df))
      (map snd (votes_by (fun r : VoteRecord => party r) df)).
Proof.
  unfold party_share. cbv zeta. rewrite votes_by_sum, !map_map. reflexivity.
Qed.

(** X18: The percentages of module 1.  When the frame holds no vote at all, no
    percentage is a number.  Otherwise the percentages of the [n] parties
    add up to 100 within [n * 0.005], and with non-negative votes each of
    them lies between 0 and 100. *)
Theorem party_share_percentages (df : DataFrame) :
  let shares := party_share df in
  let n := inject_Z (Z.of_nat (length shares)) in
  (total_votes_metric df = 0%Z ->
   forall x q, In x shares -> snd x <> Fin q) /\
  (total_votes_metric df <> 0%Z ->
   within (100 - n * (1 # 200)) (100 + n * (1 # 200))
          (float_sum (map snd shares)) /\
   ((forall r, In r df -> (0 <= votes r)%Z) ->
    forall x, In x shares -> within 0 100 (snd x))).
Proof.
  intros shares n. subst shares n.
  pose proof (party_share_percentages_eq df) as Heq.
  set (totals := map snd (votes_by (fun r : VoteRecord => party r) df)) in *.
  set (all := total_votes_metric df) in *.
  split.
  - intros Hzero x q Hx E.
    apply (in_map snd) in Hx. rewrite Heq, Hzero in Hx.
    apply in_map_iff in Hx. destruct Hx as [t [Ht _]].
    rewrite share_pct_zero, E in Ht.
    destruct (t =? 0)%Z; [discriminate | ].
    destruct (t <? 0)%Z; discriminate.
  - intros Hnz.
    set (exact := fun v => inject_Z v / inject_Z all * 100).
    assert (Hfin : map snd (party_share df) =
                   map Fin (map (fun v => Qround2 (exact v)) totals)).
    { rewrite Heq, map_map. apply map_ext. intros t.
      apply share_pct_nonzero, Hnz. }
    assert (Hlen : length (party_share df) = length totals).
    { rewrite <- (length_map snd), Hfin, !length_map. reflexivity. }
    assert (Hq : ~ inject_Z all == 0).
    { intros E. apply Hnz. rewrite <- (Qfloor_Z all), E. reflexivity. }
    split.
    + rewrite Hfin, float_sum_Fin, Hlen.
      eexists. split; [reflexivity | ].
      pose proof (Qsum_exact_shares totals Hq) as Hexact.
      fold exact in Hexact.
      assert (Hall : int_sum totals = all)
        by (unfold totals, all; apply votes_by_sum).
      assert (H100 : Qsum (map exact totals) == 100).
      { rewrite Hexact, Hall. field. exact Hq. }
      destruct (Qsum_rounded_near exact totals) as [Hlo Hhi].
      rewrite H100 in Hlo, Hhi. split; assumption.
    + intros Hnonneg x Hx.
      apply (in_map snd) in Hx. rewrite Heq in Hx.
      apply in_map_iff in Hx. destruct Hx as [t [<- Ht]].
      assert (Hpos : forall y, In y totals -> (0 <= y)%Z).
      { intros y Hy. unfold totals in Hy. apply in_map_iff in Hy.
        destruct Hy as [[k t'] [<- Hkt]]. apply votes_by_In in Hkt.
        destruct Hkt as [_ ->]. simpl. apply int_sum_nonneg.
        intros z Hz. apply in_map_iff in Hz. destruct Hz as [r [<- Hr]].
        apply Hnonneg. apply filter_In in Hr. tauto. }
      assert (Hle : (t <= all)%Z).
      { replace all with (int_sum totals)
          by (unfold totals, all; apply votes_by_sum).
        apply int_sum_ge_term; assumption. }
      pose proof (Hpos t Ht).
      apply share_pct_bounds; [lia | ].
      assert (0 <= all)%Z by lia. lia.
Qed.

Lemma party_share_percentages_witness :
  Forall (fun x => within 0 100 (snd x))
         (party_share (derive_columns close_rows)).
Proof.
  apply Forall_forall.
  destruct (party_share_percentages (derive_columns close_rows)) as [_ H].
  destruct H as [_ H]; [vm_compute; discriminate | ].
  apply H. intros r Hr. vm_compute in Hr.
  destruct Hr as [<- | [<- | [<- | [<- | [<- | []]]]]]; simpl; lia.
Defined.
(* ------------------------------------------------------------------------- *)
(** ** Session *)

Section SessionFacts.
Variable generated : DataFrame.

(** What a run can do to the session: the flag goes up only together with
    the data and only on the right credentials; the data, once there, stays
    the generated frame; [prediction_run] never goes down. *)
Lemma main_step (s : SessionState) (inp : Inputs) :
  let s' := fst (main generated s inp) in
  (authenticated s' = true ->
   authenticated s = true \/
   (login_clicked inp = true /\ username inp = "admin" /\
    password inp = "password123" /\ election_data s' = Some generated)) /\
  (election_data s' = election_data s \/ election_data s' = Some generated) /\
  (prediction_run s = true -> prediction_run s' = true).
Proof.
  unfold main, login_page.
  destruct s as [auth data pr]. simpl.
  destruct auth; simpl.
  - destruct (logout_clicked inp); simpl; [intuition discriminate | ].
    repeat match goal with
           | |- context [String.eqb ?a ?b] => destruct (String.eqb a b)
           end; simpl; try (destruct (run_clicked inp)); simpl; auto.
  - destruct (login_clicked inp); simpl; [ | intuition discriminate].
    destruct (String.eqb_spec (username inp) "admin") as [Eu | Nu];
      destruct (String.eqb_spec (password inp) "password123") as [Ep | Np];
      simpl; intuition discriminate.
Qed.

Lemma run_all_snoc (s : SessionState) (inputs : list Inputs) (inp : Inputs) :
  run_all generated s (inputs ++ [inp]) =
  fst (main generated (run_all generated s inputs) inp).
Proof. unfold run_all. rewrite fold_left_app. reflexivity. Qed.

(** In every session reachable from the first run, an authenticated
    session holds the generated frame, and the frame is either absent or
    the generated one. *)
Lemma reachable_invariant (inputs : list Inputs) :
  let s := run_all generated initial_session inputs in
  (authenticated s = true -> election_data s = Some generated) /\
  (election_data s = None \/ election_data s = Some generated).
Proof.
  induction inputs as [ | inp inputs IH] using rev_ind.
  - simpl. split; [discriminate | auto].
  - cbv zeta in *. rewrite run_all_snoc.
    destruct IH as [IHauth IHdata].
    destruct (main_step (run_all generated initial_session inputs) inp)
      as [Hauth [Hdata _]].
    cbv zeta in Hauth, Hdata.
    split.
    + intros Ha. destruct (Hauth Ha) as [Hprev | [_ [_ [_ Hnew]]]];
        [ | exact Hnew].
      destruct Hdata as [E | E]; [ | exact E].
      rewrite E. apply IHauth, Hprev.
    + destruct Hdata as [E | E]; [rewrite E; exact IHdata | auto].
Qed.
End SessionFacts.

(** X19: Whatever the sequence of interactions from the first run, a page that
    reads the election data is only ever drawn in an authenticated session
    and from the generated frame, never from [None]. *)
Theorem data_pages_have_data (generated : DataFrame) (inputs : list Inputs)
        (inp : Inputs) (name : string) (data : option DataFrame) (shown : bool) :
  let s := run_all generated initial_session inputs in
  snd (main generated s inp) = PageScreen name data shown ->
  authenticated s = true /\
  (In name data_pages -> data = Some generated).
Proof.
  intros s Hscreen.
  destruct (reachable_invariant generated inputs) as [Hinv _].
  fold s in Hinv.
  unfold main, login_page in Hscreen.
  destruct (authenticated s) eqn:Hauth; simpl in Hscreen.
  2:{ destruct (login_clicked inp);
        [destruct (String.eqb (username inp) "admin"
                   && String.eqb (password inp) "password123") | ];
        discriminate Hscreen. }
  split; [reflexivity | ].
  specialize (Hinv eq_refl).
  destruct (logout_clicked inp); [discriminate Hscreen | ].
  repeat match type of Hscreen with
         | context [String.eqb ?a ?b] => destruct (String.eqb a b)
         end;
    try discriminate Hscreen;
    simpl in Hscreen; injection Hscreen as <- <- <-;
    try (intros _; destruct (run_clicked inp); exact Hinv).
  intros Hin. vm_compute in Hin.
  repeat (destruct Hin as [Hin | Hin]; [discriminate Hin | ]).
  destruct Hin.
Qed.


Lemma data_pages_have_data_witness :
  authenticated (run_all (derive_columns close_rows) initial_session
                         [login_attempt "admin" "password123"]) = true /\
  snd (main (derive_columns close_rows)
            (run_all (derive_columns close_rows) initial_session
                     [login_attempt "admin" "password123"])
            (page_visit home_label false false))
  = PageScreen home_label (Some (derive_columns close_rows)) false.
Proof.
  assert (H : snd (main (derive_columns close_rows)
                        (run_all (derive_columns close_rows) initial_session
                                 [login_attempt "admin" "password123"])
                        (page_visit home_label false false))
              = PageScreen home_label (Some (derive_columns close_rows)) false)
    by reflexivity.
  split; [ | exact H].
  destruct (data_pages_have_data (derive_columns close_rows)
              [login_attempt "admin" "password123"]
              (page_visit home_label false false) H) as [Hauth _].
  exact Hauth.
Defined.

(** X20: A session is authenticated only if some run so far was a click on
    Login with the user name "admin" and the password "password123". *)
Theorem authentication_needs_credentials (generated : DataFrame)
        (inputs : list Inputs) :
  authenticated (run_all generated initial_session inputs) = true ->
  exists inp,
    In inp inputs /\ login_clicked inp = true /\
    username inp = "admin" /\ password inp = "password123".
Proof.
  induction inputs as [ | inp inputs IH] using rev_ind.
  - simpl. discriminate.
  - rewrite run_all_snoc. intros Ha.
    destruct (main_step generated
                (run_all generated initial_session inputs) inp) as [Hauth _].
    destruct (Hauth Ha) as [Hprev | [Hclick [Hu [Hp _]]]].
    + destruct (IH Hprev) as [inp' [Hin H]].
      exists inp'. split; [apply in_or_app; left; exact Hin | exact H].
    + exists inp. split; [apply in_or_app; right; left; reflexivity | auto].
Qed.

Lemma authentication_needs_credentials_witness :
  exists inp,
    In inp [login_attempt "guest" "guest";
            login_attempt "admin" "password123"] /\
    login_clicked inp = true /\
    username inp = "admin" /\ password inp = "password123".
Proof.
  apply (authentication_needs_credentials (derive_columns close_rows)).
  reflexivity.
Defined.

(** X21: Logging out lowers the flag and nothing else: over any further runs a
    session keeps the election data it holds, and [prediction_run], once
    set, stays set, so a later login shows the prediction without a new
    click on "Run Prediction". *)
Theorem logout_clears_nothing (generated : DataFrame) (s : SessionState)
        (inputs : list Inputs) :
  (election_data s <> None ->
   election_data (run_all generated s inputs) <> None) /\
  (prediction_run s = true ->
   prediction_run (run_all generated s inputs) = true).
Proof.
  induction inputs as [ | inp inputs [IHdata IHrun]] using rev_ind.
  - simpl. auto.
  - rewrite run_all_snoc.
    destruct (main_step generated (run_all generated s inputs) inp)
      as [_ [Hdata Hrun]].
    cbv zeta in Hdata, Hrun. split.
    + intros Hs. destruct Hdata as [E | E]; rewrite E;
        [apply IHdata, Hs | discriminate].
    + intros Hs. apply Hrun, IHrun, Hs.
Qed.

Lemma logout_clears_nothing_witness :
  let s := run_all (derive_columns close_rows) initial_session
                   [login_attempt "admin" "password123";
                    page_visit winner_label false true] in
  let s' := run_all (derive_columns close_rows) s
                    [page_visit home_label true false] in
  authenticated s' = false /\
  election_data s' <> None /\
  prediction_run s' = true.
Proof.
  intros s s'.
  destruct (logout_clears_nothing (derive_columns close_rows) s
                                  [page_visit home_label true false])
    as [Hdata Hrun].
  split; [reflexivity | ].
  split; [apply Hdata; discriminate | apply Hrun; reflexivity].
Defined.
(* ------------------------------------------------------------------------- *)
(** ** The dashboard on the synthesized frame *)

(** The keys of the groups depend on the key column only. *)
Lemma groups_keys_of_column (A : Type) (key : A -> string) (l : list A) :
  map fst (groups key l) = map fst (groups (fun k : string => k) (map key l)).
Proof.
  induction l as [ | r l IH] using rev_ind; [reflexivity | ].
  rewrite map_app. simpl map. rewrite !groups_snoc, !keys_add_row, IH.
  reflexivity.
Qed.

Lemma int_sum_le_pointwise (A : Type) (f g : A -> Z) (l : list A) :
  (forall a, In a l -> (f a <= g a)%Z) ->
  (int_sum (map f l) <= int_sum (map g l))%Z.
Proof.
  induction l as [ | a l IH]; intros H; [reflexivity | ].
  simpl map. rewrite !int_sum_cons.
  pose proof (H a (or_introl eq_refl)).
  assert (int_sum (map f l) <= int_sum (map g l))%Z
    by (apply IH; intros; apply H; right; assumption).
  lia.
Qed.

(** X22: "Leading Party" of the counting dashboard: when no row has more counted
    votes than votes (nor fewer than 0), the counted votes of every party
    lie between 0 and the votes of the party, and the slices add up to the
    counted votes of the frame. *)
Theorem counted_by_party_bounded (df : DataFrame) :
  (forall r, In r df -> (0 <= counted_votes r <= votes r)%Z) ->
  (forall p c, In (p, c) (counted_by_party df) ->
     In p (map (fun r : VoteRecord => party r) df) /\
     (0 <= c <= party_total_votes p df)%Z) /\
  int_sum (map snd (counted_by_party df))
    = int_sum (map (fun r : VoteRecord => counted_votes r) df).
Proof.
  intros Hrows. split.
  - intros p c Hin. unfold counted_by_party in Hin.
    apply in_map_iff in Hin. destruct Hin as [[k rows] [E Hg]].
    simpl in E. inversion E; subst. apply groupby_In in Hg.
    destruct Hg as [Hk ->]. split; [exact Hk | ].
    assert (Hsub : forall r, In r (rows_with (fun r : VoteRecord => party r) p df)
                             -> (0 <= counted_votes r <= votes r)%Z).
    { intros r Hr. apply Hrows. apply filter_In in Hr. tauto. }
    split.
    + apply int_sum_nonneg. intros z Hz. apply in_map_iff in Hz.
      destruct Hz as [r [<- Hr]]. apply Hsub, Hr.
    + unfold party_total_votes, party_rows_of.
      apply int_sum_le_pointwise. intros r Hr. apply Hsub, Hr.
  - unfold counted_by_party. rewrite map_map. simpl.
    apply (groupby_sum_conserved (fun r : VoteRecord => party r)
                                 (fun r : VoteRecord => counted_votes r)).
Qed.

Lemma counted_by_party_bounded_witness :
  Forall (fun pc => (0 <= snd pc
                     <= party_total_votes (fst pc) (derive_columns close_rows))%Z)
         (counted_by_party (derive_columns close_rows)).
Proof.
  apply Forall_forall. intros [p c] Hin.
  destruct (counted_by_party_bounded (derive_columns close_rows)) as [H _].
  - intros r Hr. vm_compute in Hr.
    destruct Hr as [<- | [<- | [<- | [<- | [<- | []]]]]]; simpl; lia.
  - apply (H p c Hin).
Defined.

(** X23: Whatever is drawn, module 2 opens on the synthesized frame with the
    regions North, South and East selected. *)
Theorem default_regions_synthesized
        (rng : Type) (np_seed : Z -> rng)
        (np_randint : Z -> Z -> rng -> Z * rng)
        (np_uniform : Q -> Q -> rng -> Q * rng)
        (np_choice : list string -> list Q -> rng -> string * rng)
        (s : rng) :
  default_regions
    (fst (generate_election_data np_seed np_randint np_uniform np_choice s))
  = ["North"; "South"; "East"].
Proof.
  unfold default_regions, unique.
  rewrite groups_keys_of_column.
  assert (Hcol : map (fun r : VoteRecord => region r)
                     (fst (generate_election_data np_seed np_randint
                                                  np_uniform np_choice s))
                 = map (fun k => fst (fst (fst k))) synthesized_keys).
  { rewrite <- (generated_keys np_seed np_randint np_uniform np_choice s).
    rewrite map_map. reflexivity. }
  rewrite Hcol. vm_compute. reflexivity.
Qed.

Lemma leading_party_in_frame (df : DataFrame) :
  df <> [] ->
  exists p, leading_party df = Returns p /\
            In p (map (fun r : VoteRecord => party r) df).
Proof.
  intros Hne. unfold leading_party, idxmax.
  destruct (votes_by (fun r : VoteRecord => party r) df) as [ | x rest] eqn:E.
  - exfalso. apply Hne.
    apply (groupby_nil_iff (fun r : VoteRecord => party r)).
    unfold votes_by in E. apply map_eq_nil in E. exact E.
  - pose proof (first_max_In x rest) as Hin. rewrite <- E in Hin.
    destruct (first_max x rest) as [p t].
    apply votes_by_In in Hin. exists p. split; [reflexivity | tauto].
Qed.

(** X24: The home page on the synthesized frame, when the draws stay in their
    documented ranges: 100 constituencies, at least 5000000 registered
    voters and 750000 votes, a turnout that is a positive number, and a
    leading party that is one of the five parties ([idxmax] does not
    raise). *)
Theorem home_metrics_synthesized
        (rng : Type) (np_seed : Z -> rng)
        (np_randint : Z -> Z -> rng -> Z * rng)
        (np_uniform : Q -> Q -> rng -> Q * rng)
        (np_choice : list string -> list Q -> rng -> string * rng)
        (s : rng) :
  randint_in_range np_randint ->
  uniform_in_range np_uniform ->
  choice_in_options np_choice ->
  let df := fst (generate_election_data np_seed np_randint np_uniform
                                        np_choice s) in
  constituencies_metric df = 100%Z /\
  (5000000 <= registered_voters df)%Z /\
  (750000 <= total_votes_metric df)%Z /\
  (exists t, turnout_metric df = Fin t /\ 0 < t) /\
  (exists p, leading_party df = Returns p /\ In p parties).
Proof.
  intros Hrandint Huniform Hchoice df.
  pose proof (generated_keys np_seed np_randint np_uniform np_choice s)
    as Hkeys. fold df in Hkeys.
  assert (Hplausible : forall d, In d df -> plausible_row d).
  { intros d Hd. unfold df in Hd. rewrite generated_frame in Hd.
    apply derive_columns_In in Hd. destruct Hd as [Hbase _].
    pose proof (data_list_plausible Hrandint Huniform Hchoice (np_seed 42%Z))
      as Hall.
    rewrite Forall_forall in Hall. apply Hall, Hbase. }
  assert (Hlen : length df = 500%nat).
  { rewrite <- (length_map (fun d : VoteRecord => key_columns d)), Hkeys.
    vm_compute. reflexivity. }
  assert (Hgroups : length (groupby (fun r : VoteRecord => constituency_name r) df)
                    = 100%nat).
  { unfold groupby.
    rewrite (Permutation_length (sort_index_perm _)).
    rewrite <- (length_map fst), groups_keys_of_column.
    assert (Hcol : map (fun r : VoteRecord => constituency_name r) df
                   = map (fun k => snd (fst k)) synthesized_keys).
    { rewrite <- Hkeys, map_map. reflexivity. }
    rewrite Hcol. vm_compute. reflexivity. }
  assert (Hreg : (5000000 <= registered_voters df)%Z).
  { unfold registered_voters.
    pose proof (@int_sum_between
                  (map first_total_voters
                       (groupby (fun r : VoteRecord => constituency_name r) df))
                  50000 200000) as Hb.
    rewrite length_map, Hgroups in Hb.
    destruct Hb as [Hlo _]; [ | lia].
    intros y Hy. apply in_map_iff in Hy. destruct Hy as [[k rows] [<- Hg]].
    apply groupby_In in Hg. destruct Hg as [Hk ->].
    pose proof (rows_with_nonempty _ _ _ Hk) as Hne.
    unfold first_total_voters. simpl.
    destruct (rows_with (fun r : VoteRecord => constituency_name r) k df)
      as [ | r rest] eqn:E; [contradiction | ].
    assert (Hr : In r df).
    { assert (Hin : In r (r :: rest)) by (left; reflexivity).
      rewrite <- E in Hin. apply filter_In in Hin. tauto. }
    destruct (Hplausible r Hr) as [Hv _]. lia. }
  assert (Hvotes : (750000 <= total_votes_metric df)%Z).
  { unfold total_votes_metric.
    pose proof (@int_sum_between (map (fun r : VoteRecord => votes r) df)
                                 1500 200000) as Hb.
    rewrite length_map, Hlen in Hb.
    destruct Hb as [Hlo _]; [ | lia].
    intros y Hy. apply in_map_iff in Hy. destruct Hy as [r [<- Hr]].
    destruct (Hplausible r Hr) as [Hv [Hn _]]. lia. }
  split; [unfold constituencies_metric; rewrite Hgroups; reflexivity | ].
  split; [exact Hreg | ]. split; [exact Hvotes | ]. split.
  - unfold turnout_metric, of_int, fdiv.
    assert (HregQ : 0 < inject_Z (registered_voters df))
      by (rewrite <- (Zlt_Qlt 0); lia).
    assert (HvotesQ : 0 < inject_Z (total_votes_metric df))
      by (rewrite <- (Zlt_Qlt 0); lia).
    rewrite (Qpos_not_zero HregQ). simpl.
    eexists. split; [reflexivity | ].
    assert (0 < inject_Z (total_votes_metric df)
                / inject_Z (registered_voters df)).
    { apply Qlt_shift_div_l; [exact HregQ | lra]. }
    lra.
  - destruct (@leading_party_in_frame df) as [p [Hp Hin]].
    { intros E. rewrite E in Hlen. discriminate Hlen. }
    exists p. split; [exact Hp | ].
    apply in_map_iff in Hin. destruct Hin as [r [<- Hr]].
    apply (in_map (fun d : VoteRecord => key_columns d)) in Hr.
    rewrite Hkeys in Hr. unfold synthesized_keys in Hr.
    apply in_flat_map in Hr. destruct Hr as [c [_ Hc]].
    unfold constituency_keys in Hc. apply in_map_iff in Hc.
    destruct Hc as [p [E Hp']]. unfold key_columns in E.
    inversion E. subst p. exact Hp'.
Qed.

Lemma home_metrics_synthesized_witness :
  constituencies_metric
    (fst (generate_election_data (fun z : Z => z) lcg_randint
                                 lcg_uniform lcg_choice 1%Z)) = 100%Z.
Proof.
  destruct (home_metrics_synthesized
              (fun z : Z => z) 1%Z
              lcg_randint_in_range lcg_uniform_in_range lcg_choice_in_options)
    as [H _].
  exact H.
Defined.
